(** * wals3: the [languoids] view of [wals3/views.py]

    A shallow embedding of the autocomplete view [languoids] and the
    properties of its direct-lookup path and of its text-search cascade
    through language names, alternative names, genera and families. *)

From Stdlib Require Import Ascii.
From stdpp Require Import base option list strings pretty gmap sorting.

(** * Python helpers used by the view *)

Module Py.

(** [c in s] for a one-character needle. *)
Fixpoint contains (c : ascii) (s : string) : bool :=
  match s with
  | EmptyString => false
  | String a s' => if bool_decide (a = c) then true else contains c s'
  end.

(** The text before and after the first occurrence of [c], if any. *)
Fixpoint partition (c : ascii) (s : string) : option (string * string) :=
  match s with
  | EmptyString => None
  | String a s' =>
      if bool_decide (a = c) then Some (EmptyString, s')
      else match partition c s' with
           | Some (before, after) => Some (String a before, after)
           | None => None
           end
  end.

(** [s.split(c, 1)]: at most one split, at the first occurrence of [c];
    a string without [c] comes back whole, as a one-element list. *)
Definition split1 (c : ascii) (s : string) : list string :=
  match partition c s with
  | Some (before, after) => [before; after]
  | None => [s]
  end.

(** Truth value of [d.get(k)] for a string-valued mapping: [None] and the
    empty string are false. *)
Definition truthy (v : option string) : bool :=
  match v with
  | Some s => bool_decide (s ≠ "")
  | None => false
  end.

End Py.

(** * Data model *)

Record Language := mkLanguage {
  l_pk : nat; l_id : string; l_name : string; ascii_name : string }.
Record Genus := mkGenus { g_pk : nat; g_id : string; g_name : string }.
Record Family := mkFamily { f_pk : nat; f_id : string; f_name : string }.

(** What the result list of the view holds: model instances of the three
    classes.  Two entries are the same object exactly when they are equal. *)
Inductive Languoid :=
| ALanguage (l : Language)
| AGenus (g : Genus)
| AFamily (f : Family).

#[global] Instance Language_eq_dec : EqDecision Language.
Proof. solve_decision. Defined.
#[global] Instance Genus_eq_dec : EqDecision Genus.
Proof. solve_decision. Defined.
#[global] Instance Family_eq_dec : EqDecision Family.
Proof. solve_decision. Defined.
#[global] Instance Languoid_eq_dec : EqDecision Languoid.
Proof. solve_decision. Defined.

(** The classes the direct lookup dispatches on:
    [dict(w=Language, g=Genus, f=Family)]. *)
Inductive Model := LanguageModel | GenusModel | FamilyModel.

#[global] Instance Model_eq_dec : EqDecision Model.
Proof. solve_decision. Defined.

Definition models : gmap string Model :=
  <["w" := LanguageModel]> (<["g" := GenusModel]> (<["f" := FamilyModel]> ∅)).

(** The four queries of the cascade, in the order the view issues them. *)
Inductive Stage := StageA | StageB | StageC | StageD.

#[global] Instance Stage_eq_dec : EqDecision Stage.
Proof. solve_decision. Defined.

Definition priority (s : Stage) : nat :=
  match s with StageA => 0 | StageB => 1 | StageC => 2 | StageD => 3 end.

(** An entry of [res].  [origin] is bookkeeping of the model only: it records
    which query produced the entry and is never read by the view. *)
Record Candidate := mkCandidate { origin : Stage; entity : Languoid }.

(** One query sent to the database.  [call_cap] is the argument of
    [.limit(...)]; [call_seen] is bookkeeping of the model: [len(res)] at the
    time of the call. *)
Record Call := mkCall {
  call_stage : Stage; call_text : string; call_cap : nat; call_seen : nat }.

Record DisplayRecord := mkDisplay { d_id : string; d_text : string }.

(** What the view returns: an [HTTPNotFound] or [HTTPFound] response object,
    a bare JSON list, or the dict [dict(results=..., context={}, more=...)].
    [Raised] stands for an uncaught Python exception. *)
Inductive Response :=
| HTTPNotFound
| HTTPFound (location : string)
| JsonList (items : list DisplayRecord)
| JsonDict (results : list DisplayRecord) (context : list (string * string))
           (more : bool)
| Raised (exc : string).

(** Everything the view reaches outside its own body: the result rows of the
    four queries as a function of the search text and of the [limit], the
    lookup [model.get(id_, default=None)], [request.resource_url] and
    [LanguoidSelect.format_result]. *)
Record World := mkWorld {
  language_names : string → nat → list Language;
  alternative_names : string → nat → list Language;
  genus_names : string → nat → list Genus;
  family_names : string → nat → list Family;
  get : Model → string → option Languoid;
  resource_url : Languoid → string;
  format_result : Languoid → DisplayRecord;
}.

(** * The view *)

(** The local variables of the text search, with the log of queries. *)
Record State := mkState {
  res : list Candidate;
  max_results : nat;
  calls : list Call;
}.

(** [if l not in res: res.append(l)] for one row of the second query. *)
Definition append_new (res : list Candidate) (l : Language) : list Candidate :=
  if bool_decide (ALanguage l ∈ entity <$> res) then res
  else res ++ [mkCandidate StageB (ALanguage l)].

(** What one call of the view does: its return value, and as bookkeeping
    the entries of [res] with their origins and the queries it sent. *)
Record Outcome := mkOutcome {
  response : Response;
  accepted : list Candidate;
  queries : list Call;
}.

Definition respond (r : Response) : Outcome :=
  {| response := r; accepted := []; queries := [] |}.

Section View.
Context (W : World).

(** Lines 84-88: the query on language names and [res = [l for l in query]]. *)
Definition names (qs : string) (st : State) : State :=
  let query := language_names W qs (max_results st) in
  {| res := mkCandidate StageA ∘ ALanguage <$> query;
     max_results := max_results st;
     calls := calls st ++ [mkCall StageA qs (max_results st) 0] |}.

(** Lines 90-99: fill up with matching alternative names. *)
Definition fill_alternative_names (qs : string) (st : State) : State :=
  if bool_decide (length (res st) < max_results st) then
    let max_results' := max_results st - length (res st) in
    {| res := foldl append_new (res st) (alternative_names W qs max_results');
       max_results := max_results';
       calls := calls st ++
                  [mkCall StageB qs max_results' (length (res st))] |}
  else st.

(** Lines 101-108: fill up with matching genera. *)
Definition fill_genera (qs : string) (st : State) : State :=
  if bool_decide (length (res st) < max_results st) then
    let max_results' := max_results st - length (res st) in
    {| res := res st ++
                (mkCandidate StageC ∘ AGenus <$> genus_names W qs max_results');
       max_results := max_results';
       calls := calls st ++
                  [mkCall StageC qs max_results' (length (res st))] |}
  else st.

(** Lines 110-117: fill up with matching families. *)
Definition fill_families (qs : string) (st : State) : State :=
  if bool_decide (length (res st) < max_results st) then
    let max_results' := max_results st - length (res st) in
    {| res := res st ++
                (mkCandidate StageD ∘ AFamily <$> family_names W qs max_results');
       max_results := max_results';
       calls := calls st ++
                  [mkCall StageD qs max_results' (length (res st))] |}
  else st.

(** Lines 84-117 for an initial value [limit] of [max_results]. *)
Definition search (limit : nat) (qs : string) : State :=
  fill_families qs
    (fill_genera qs
       (fill_alternative_names qs
          (names qs {| res := []; max_results := limit; calls := [] |}))).

(** Lines 67-77. *)
Definition direct_lookup (id : string) : Outcome :=
  if negb (Py.contains "-"%char id) then respond HTTPNotFound
  else
    match Py.split1 "-"%char id with
    | [m; id_] =>
        match models !! m with
        | None => respond HTTPNotFound
        | Some model =>
            match get W model id_ with
            | None => respond HTTPNotFound
            | Some obj => respond (HTTPFound (resource_url W obj))
            end
        end
    | _ => respond (Raised "ValueError")
    end.

(** Lines 66-120; [params] is [request.params]. *)
Definition languoids (params : gmap string string) : Outcome :=
  if Py.truthy (params !! "id") then
    direct_lookup (default "" (params !! "id"))
  else
    let max_results := 20 in
    let qs := params !! "q" in
    if negb (Py.truthy qs) then respond (JsonList [])
    else
      let st := search max_results (default "" qs) in
      {| response :=
           JsonDict (format_result W ∘ entity <$> res st) [] false;
         accepted := res st;
         queries := calls st |}.

End View.

Abbreviation candA := (mkCandidate StageA ∘ ALanguage).
Abbreviation candB := (mkCandidate StageB ∘ ALanguage).
Abbreviation candC := (mkCandidate StageC ∘ AGenus).
Abbreviation candD := (mkCandidate StageD ∘ AFamily).

(** Every query returns at most as many rows as its [limit] asks for. *)
Definition respects_limit (W : World) : Prop :=
  ∀ qs n,
    length (language_names W qs n) ≤ n
    ∧ length (alternative_names W qs n) ≤ n
    ∧ length (genus_names W qs n) ≤ n
    ∧ length (family_names W qs n) ≤ n.

(** What every step of the text search keeps, for an initial [max_results]
    of [limit]: [res] and [max_results] stay within [limit], and no query was
    sent with a cap above the room left in [res] at that time. *)
Definition within_quota (limit : nat) (st : State) : Prop :=
  length (res st) ≤ limit
  ∧ max_results st ≤ limit
  ∧ Forall (λ c, call_cap c ≤ limit - call_seen c) (calls st).

(** The quota that remains before stage [s] of a call: the limit of 20 minus
    the number of entries accepted from the stages before [s]. *)
Definition quota_before (s : Stage) (o : Outcome) : nat :=
  20 - length (filter (λ c, priority (origin c) < priority s) (accepted o)).

(** Whether the query of stage [s] was sent during a call. *)
Definition invoked (s : Stage) (o : Outcome) : Prop :=
  s ∈ call_stage <$> queries o.

(** [key] reads [m], the first ["-"], then [id_]. *)
Definition splits_at_first_dash (key m id_ : string) : Prop :=
  key = m +:+ "-" +:+ id_ ∧ ∀ a b, m ≠ a +:+ "-" +:+ b.

(** * The queries against a database

    The rows each of the four queries selects, for a database given as its
    tables.  [icontains] is clld's case-insensitive containment test and
    [collate] the order the database sorts text by; [ORDER BY] is taken as a
    stable sort of the selected rows. *)

Record Identifier := mkIdentifier { i_pk : nat; i_name : string }.
Record LanguageIdentifier := mkLanguageIdentifier {
  language_pk : nat; identifier_pk : nat }.

Record Database := mkDatabase {
  language : list Language;
  genus : list Genus;
  family : list Family;
  identifier : list Identifier;
  languageidentifier : list LanguageIdentifier;
}.

Definition as_language (x : Languoid) : option Language :=
  match x with ALanguage l => Some l | _ => None end.

Section Queries.
Context (icontains : string → string → bool).
Context (collate : relation string) `{!RelDecision collate}.

Definition by_key {A} (key : A → string) : relation A :=
  λ x y, collate (key x) (key y).

#[local] Instance by_key_dec {A} (key : A → string) : RelDecision (by_key key).
Proof. intros x y. unfold by_key. apply _. Defined.

Definition order_by {A} (key : A → string) (rows : list A) : list A :=
  merge_sort (by_key key) rows.

(** [query(Language).join(Language.languageidentifier,
    LanguageIdentifier.identifier)]: one row per language and identifier
    linked to it. *)
Definition join_identifiers (db : Database) : list (Language * Identifier) :=
  l ← language db;
  li ← filter (λ li, language_pk li = l_pk l) (languageidentifier db);
  i ← filter (λ i, i_pk i = identifier_pk li) (identifier db);
  [(l, i)].

(** Lines 84-86. *)
Definition query_language_names (db : Database) (qs : string) (n : nat)
  : list Language :=
  take n (order_by ascii_name
            (filter (λ l, icontains (l_name l) qs) (language db))).

(** Lines 94-97. *)
Definition query_alternative_names (db : Database) (qs : string) (n : nat)
  : list Language :=
  fst <$> take n (order_by (ascii_name ∘ fst)
                    (filter (λ r, icontains (i_name r.2) qs)
                       (join_identifiers db))).

(** Lines 105-107. *)
Definition query_genus_names (db : Database) (qs : string) (n : nat)
  : list Genus :=
  take n (order_by g_name (filter (λ g, icontains (g_name g) qs) (genus db))).

(** Lines 114-116. *)
Definition query_family_names (db : Database) (qs : string) (n : nat)
  : list Family :=
  take n (order_by f_name (filter (λ f, icontains (f_name f) qs) (family db))).

(** [model.get(id_, default=None)]: the row with that [id], if there is one. *)
Definition query_get (db : Database) (model : Model) (id : string)
  : option Languoid :=
  match model with
  | LanguageModel => ALanguage <$> head (filter (λ l, l_id l = id) (language db))
  | GenusModel => AGenus <$> head (filter (λ g, g_id g = id) (genus db))
  | FamilyModel => AFamily <$> head (filter (λ f, f_id f = id) (family db))
  end.

Definition database_world (db : Database) (url : Languoid → string)
    (fmt : Languoid → DisplayRecord) : World :=
  {| language_names := query_language_names db;
     alternative_names := query_alternative_names db;
     genus_names := query_genus_names db;
     family_names := query_family_names db;
     get := query_get db;
     resource_url := url;
     format_result := fmt |}.

End Queries.

(** * Sample data for the concrete runs *)

Definition sample_language (n : nat) : Language :=
  {| l_pk := n; l_id := "l" +:+ pretty n; l_name := "Language " +:+ pretty n;
     ascii_name := "language " +:+ pretty n |}.
Definition sample_genus (n : nat) : Genus :=
  {| g_pk := n; g_id := "g" +:+ pretty n; g_name := "Genus " +:+ pretty n |}.
Definition sample_family (n : nat) : Family :=
  {| f_pk := n; f_id := "f" +:+ pretty n; f_name := "Family " +:+ pretty n |}.

Definition sample_url (x : Languoid) : string :=
  match x with
  | ALanguage l => "/languoid/lect/wals_code_" +:+ l_id l
  | AGenus g => "/languoid/genus/" +:+ g_id g
  | AFamily f => "/languoid/family/" +:+ f_id f
  end.

Definition sample_format (x : Languoid) : DisplayRecord :=
  match x with
  | ALanguage l => {| d_id := "w-" +:+ l_id l; d_text := l_name l |}
  | AGenus g => {| d_id := "g-" +:+ g_id g; d_text := g_name g |}
  | AFamily f => {| d_id := "f-" +:+ f_id f; d_text := f_name f |}
  end.

(** A world whose queries select the given rows whatever the search text,
    cut at the [limit], and whose lookup finds the rows by [id]. *)
Definition fixed_world (A B : list Language) (C : list Genus) (D : list Family)
  : World :=
  {| language_names := λ _ n, take n A;
     alternative_names := λ _ n, take n B;
     genus_names := λ _ n, take n C;
     family_names := λ _ n, take n D;
     get := λ model id,
       match model with
       | LanguageModel => ALanguage <$> head (filter (λ l, l_id l = id) (A ++ B))
       | GenusModel => AGenus <$> head (filter (λ g, g_id g = id) C)
       | FamilyModel => AFamily <$> head (filter (λ f, f_id f = id) D)
       end;
     resource_url := sample_url;
     format_result := sample_format |}.

(** Ten matching language names, no alternative names, five genera, five
    families. *)
Definition world_ten_names : World :=
  fixed_world (sample_language <$> seq 0 10) []
    (sample_genus <$> seq 0 5) (sample_family <$> seq 0 5).

(** Five matching language names, no alternative names, twelve genera, five
    families. *)
Definition world_five_names : World :=
  fixed_world (sample_language <$> seq 0 5) []
    (sample_genus <$> seq 0 12) (sample_family <$> seq 0 5).

(** Two matching language names; two rows by alternative names, the first
    of them a language already found by name; three genera; one family. *)
Definition world_overlap : World :=
  fixed_world [sample_language 0; sample_language 1]
    [sample_language 0; sample_language 2]
    (sample_genus <$> seq 0 3) [sample_family 0].

(** The same with seventeen matching language names. *)
Definition world_overlap_17 : World :=
  fixed_world (sample_language <$> seq 0 17)
    [sample_language 0; sample_language 17]
    (sample_genus <$> seq 0 3) [sample_family 0].

(** Rows by alternative names that repeat a language. *)
Definition world_repeats : World :=
  fixed_world [sample_language 0; sample_language 1]
    [sample_language 2; sample_language 2; sample_language 0;
     sample_language 3; sample_language 2]
    [sample_genus 0] [sample_family 0].

(** A containment test and a database for the runs against tables. *)
Definition lower (c : ascii) : ascii :=
  let n := nat_of_ascii c in
  if bool_decide (65 ≤ n ≤ 90) then ascii_of_nat (n + 32) else c.

Fixpoint lower_string (s : string) : string :=
  match s with
  | EmptyString => EmptyString
  | String c s' => String (lower c) (lower_string s')
  end.

Fixpoint is_infix (needle s : string) : bool :=
  String.prefix needle s ||
  match s with
  | EmptyString => false
  | String _ s' => is_infix needle s'
  end.

Definition sample_icontains (col qs : string) : bool :=
  is_infix (lower_string qs) (lower_string col).

Definition zulu : Language :=
  {| l_pk := 1; l_id := "zul"; l_name := "Zulu"; ascii_name := "zulu" |}.
Definition abkhaz : Language :=
  {| l_pk := 2; l_id := "abk"; l_name := "Abkhaz"; ascii_name := "abkhaz" |}.

(** Zulu carries the alternative name "Abantu", Abkhaz the alternative name
    "Zban". *)
Definition sample_database : Database :=
  {| language := [zulu; abkhaz];
     genus := [{| g_pk := 1; g_id := "bantoid"; g_name := "Bantoid" |}];
     family := [{| f_pk := 1; f_id := "nigercongo"; f_name := "Niger-Congo" |}];
     identifier := [{| i_pk := 10; i_name := "Abantu" |};
                    {| i_pk := 11; i_name := "Zban" |}];
     languageidentifier := [{| language_pk := 1; identifier_pk := 10 |};
                            {| language_pk := 2; identifier_pk := 11 |}] |}.

Definition sample_database_world : World :=
  database_world sample_icontains String.le sample_database
    sample_url sample_format.

(** * The other views of the module *)

(** Exceptions a view raises or lets through. *)
Inductive Exception :=
| AssertionError
| ValueError
| IndexError
| NoResultFound.

(** A Python call that returns a value or raises. *)
Inductive Result (A : Type) :=
| Return (a : A)
| Raise (e : Exception).
Arguments Return {A} a.
Arguments Raise {A} e.

Definition bind {A B} (r : Result A) (k : A → Result B) : Result B :=
  match r with
  | Return a => k a
  | Raise e => Raise e
  end.

Notation "'let*' x ':=' r 'in' k" := (bind r (λ x, k))
  (at level 10, x name, r at level 100, k at level 200, only parsing).

(** [assert cond]. *)
Definition assert_ (cond : bool) : Result unit :=
  if cond then Return () else Raise AssertionError.

Module Str.

(** [s.split(sep)] for a separator that is not empty, scanning [s] from
    the left: [cur] is the piece being read, [skip] the number of characters
    of a separator just found that are still to be passed over. *)
Fixpoint split_go (sep : string) (skip : nat) (cur s : string) : list string :=
  match s with
  | EmptyString => [cur]
  | String a s' =>
      match skip with
      | S k => split_go sep k cur s'
      | O =>
          if String.prefix sep s
          then cur :: split_go sep (String.length sep - 1) "" s'
          else split_go sep 0 (cur +:+ String a "") s'
      end
  end.

(** [s.split(sep)]; an empty separator is a [ValueError]. *)
Definition split (sep s : string) : Result (list string) :=
  if bool_decide (sep = "") then Raise ValueError
  else Return (split_go sep 0 "" s).

(** [sep.join(parts)]. *)
Fixpoint join (sep : string) (parts : list string) : string :=
  match parts with
  | [] => ""
  | [p] => p
  | p :: rest => p +:+ sep +:+ join sep rest
  end.

(** [a or b] on strings that may be [None]. *)
Definition or_ (a : option string) (b : string) : string :=
  match a with
  | Some s => if bool_decide (s = "") then b else s
  | None => b
  end.

End Str.

(** ** [info] *)

Record DomainElement := mkDomainElement { de_name : string }.
Record Feature := mkFeature {
  feature_name : string; domain : list DomainElement }.

(** [{'name': d.name, 'number': i + 1}]. *)
Record ValueInfo := mkValueInfo { vi_name : string; vi_number : nat }.
(** [{'name': feature.name, 'values': [...]}]. *)
Record FeatureInfo := mkFeatureInfo {
  fi_name : string; fi_values : list ValueInfo }.

(** Lines 124-130.  [Feature_get] gives the feature with an id, if there is
    one; [Feature.get] without a default raises when there is none. *)
Definition info (Feature_get : string → option Feature) (id : string)
  : Result FeatureInfo :=
  match Feature_get id with
  | None => Raise NoResultFound
  | Some feature =>
      Return {| fi_name := feature_name feature;
                fi_values :=
                  imap (λ i d, {| vi_name := de_name d; vi_number := i + 1 |})
                    (domain feature) |}
  end.

(** ** [OlacConfigSource] *)

(** A row of the table of sources: its primary key and the time of its last
    update. *)
Record Source := mkSource { src_pk : Z; src_updated : Z }.

#[global] Instance Source_eq_dec : EqDecision Source.
Proof. solve_decision. Defined.

Record Contributor := mkContributor {
  contributor_name : string; contributor_email : option string }.

Record Dataset := mkDataset {
  ds_domain : string;
  ds_contact : string;
  ds_editors : list Contributor;
  publisher_name : string;
  publisher_url : string;
  publisher_place : string;
}.

Record Participant := mkParticipant {
  p_role : string; p_name : string; p_email : string }.
Record Institution := mkInstitution {
  inst_name : string; inst_url : string; inst_location : string }.
Record Description := mkDescription {
  archiveURL : string;
  participants : list Participant;
  institution : Institution;
  synopsis : string;
}.

(** [ORDER BY Source.updated, Source.pk] and [ORDER BY Source.pk]. *)
Definition updated_pk_le (a b : Source) : Prop :=
  (src_updated a < src_updated b
   ∨ (src_updated a = src_updated b ∧ src_pk a ≤ src_pk b))%Z.
Definition pk_le (a b : Source) : Prop := (src_pk a ≤ src_pk b)%Z.

#[global] Instance updated_pk_le_dec : RelDecision updated_pk_le.
Proof. intros a b. unfold updated_pk_le. apply _. Defined.
#[global] Instance pk_le_dec : RelDecision pk_le.
Proof. intros a b. unfold pk_le. apply _. Defined.

Section Olac.
(** [scheme] and [delimiter] are the attributes the class inherits from
    clld's [OlacConfig]; [int] is Python's [int] on strings; [sources] holds
    the rows of [req.db.query(Source)] and [dataset] is [req.dataset]. *)
Context (scheme delimiter : string) (int : string → option Z).
Context (sources : list Source) (dataset : Dataset).

(** Lines 165-166: [.first()] is the first row, or [None]. *)
Definition get_earliest_record : option Source :=
  head (merge_sort updated_pk_le sources).

(** Lines 173-179; a bound that is given is a [datetime], which is true. *)
Definition query_records (from_ until : option Z) : list Source :=
  let rows := sources in
  let rows := match from_ with
              | Some t => filter (λ s, (t ≤ src_updated s)%Z) rows
              | None => rows
              end in
  let rows := match until with
              | Some t => filter (λ s, (src_updated s < t)%Z) rows
              | None => rows
              end in
  merge_sort pk_le rows.

(** Lines 181-183. *)
Definition format_identifier (item : Source) : string :=
  Str.join delimiter
    [scheme; "refdb." +:+ ds_domain dataset; pretty (src_pk item)].

(** Lines 185-187. *)
Definition parse_identifier (id_ : string) : Result Z :=
  let* _ := assert_ (is_infix delimiter id_) in
  let* parts := Str.split delimiter id_ in
  match last parts with
  | None => Raise IndexError
  | Some text =>
      match int text with
      | Some n => Return n
      | None => Raise ValueError
      end
  end.

(** [Source.get(pk, default=None)]: the row with that primary key. *)
Definition Source_get (pk : Z) : option Source :=
  head (filter (λ s, src_pk s = pk) sources).

(** Lines 168-171. *)
Definition get_record (identifier : string) : Result Source :=
  let* pk := parse_identifier identifier in
  match Source_get pk with
  | Some rec => Return rec
  | None => Raise AssertionError
  end.

(** Lines 189-209. *)
Definition description : Description :=
  {| archiveURL := "http://" +:+ ds_domain dataset +:+ "/refdb_oai";
     participants :=
       [mkParticipant "Admin" "Robert Forkel" "robert_forkel@eva.mpg.de"]
       ++ ((λ ed, mkParticipant "Editor" (contributor_name ed)
                    (Str.or_ (contributor_email ed) (ds_contact dataset)))
             <$> ds_editors dataset);
     institution :=
       mkInstitution (publisher_name dataset) (publisher_url dataset)
         (publisher_place dataset +:+ ", Germany");
     synopsis :=
       "The World Atlas of Language Structures Online is a large database "
       +:+ "of structural (phonological, grammatical, lexical) properties of languages "
       +:+ "gathered from descriptive materials (such as reference grammars). The RefDB "
       +:+ "archive contains bibliographical records for all resources cited in WALS "
       +:+ "Online." |}.

End Olac.

(** ** Vocabulary of the further properties *)

(** The number of entries of the output that came from stage [s]. *)
Definition entries_from (s : Stage) (o : Outcome) : nat :=
  length (filter (λ c, origin c = s) (accepted o)).

Definition as_genus (x : Languoid) : option Genus :=
  match x with AGenus g => Some g | _ => None end.
Definition as_family (x : Languoid) : option Family :=
  match x with AFamily f => Some f | _ => None end.

(** The direct-lookup key that names an entity. *)
Definition lookup_key (x : Languoid) : string :=
  match x with
  | ALanguage l => "w-" +:+ l_id l
  | AGenus g => "g-" +:+ g_id g
  | AFamily f => "f-" +:+ f_id f
  end.

Definition in_database (db : Database) (x : Languoid) : Prop :=
  match x with
  | ALanguage l => l ∈ language db
  | AGenus g => g ∈ genus db
  | AFamily f => f ∈ family db
  end.

(** The [id] columns are unique. *)
Definition unique_ids (db : Database) : Prop :=
  NoDup (l_id <$> language db)
  ∧ NoDup (g_id <$> genus db)
  ∧ NoDup (f_id <$> family db).

(** Language [l] is linked to an identifier whose name contains [qs]. *)
Definition has_alternative_name (icontains : string → string → bool)
    (db : Database) (qs : string) (l : Language) : Prop :=
  ∃ li i,
    li ∈ languageidentifier db ∧ i ∈ identifier db
    ∧ language_pk li = l_pk l ∧ i_pk i = identifier_pk li
    ∧ icontains (i_name i) qs.

(** An entry of the output is a row of the table of its stage that matches
    the text [qs] in the column its stage searches. *)
Definition justified (icontains : string → string → bool)
    (db : Database) (qs : string) (c : Candidate) : Prop :=
  match origin c, entity c with
  | StageA, ALanguage l => l ∈ language db ∧ icontains (l_name l) qs
  | StageB, ALanguage l =>
      l ∈ language db ∧ has_alternative_name icontains db qs l
  | StageC, AGenus g => g ∈ genus db ∧ icontains (g_name g) qs
  | StageD, AFamily f => f ∈ family db ∧ icontains (f_name f) qs
  | _, _ => False
  end.

(** Twenty-five matching language names. *)
Definition world_many_names : World :=
  fixed_world (sample_language <$> seq 0 25) [sample_language 30]
    (sample_genus <$> seq 0 3) [sample_family 0].

(** ** Sample data for the other views *)

(** A reader of decimal numerals, [None] on any other text. *)
Fixpoint digits_value (acc : Z) (s : string) : option Z :=
  match s with
  | EmptyString => Some acc
  | String c s' =>
      match Ascii.is_nat c with
      | Some d => digits_value (10 * acc + Z.of_nat d) s'
      | None => None
      end
  end.

Definition sample_int (s : string) : option Z :=
  match s with
  | EmptyString => None
  | String "-" EmptyString => None
  | String "-" s' => Z.opp <$> digits_value 0 s'
  | _ => digits_value 0 s
  end.

Definition sample_sources : list Source :=
  [mkSource 7 300; mkSource 3 100; mkSource 12 200; mkSource 5 100].

Definition sample_dataset : Dataset :=
  {| ds_domain := "wals.info";
     ds_contact := "contact@wals.info";
     ds_editors := [mkContributor "A" (Some "a@example.org");
                    mkContributor "B" None;
                    mkContributor "C" (Some "")];
     publisher_name := "MPI EVA";
     publisher_url := "https://www.eva.mpg.de";
     publisher_place := "Leipzig" |}.

Definition sample_feature : Feature :=
  {| feature_name := "Order of Subject and Verb";
     domain := [mkDomainElement "SV"; mkDomainElement "VS";
                mkDomainElement "No dominant order"] |}.

Definition sample_features (id : string) : option Feature :=
  if bool_decide (id = "82A") then Some sample_feature else None.

(** * Auxiliary facts *)

Section ListFacts.
Context {A : Type}.

Lemma StronglySorted_sublist (R : relation A) (l1 l2 : list A) :
  l1 `sublist_of` l2 → StronglySorted R l2 → StronglySorted R l1.
Proof.
  induction 1 as [|x l1 l2 Hsub IH|x l1 l2 Hsub IH]; intros Hs.
  - constructor.
  - apply StronglySorted_cons in Hs as [Hall Hs].
    apply StronglySorted_cons. split; [|by apply IH].
    apply Forall_forall. intros y Hy.
    rewrite Forall_forall in Hall. apply Hall.
    by apply (sublist_subseteq _ _ Hsub).
  - apply StronglySorted_cons in Hs as [_ Hs]. by apply IH.
Qed.

Lemma StronglySorted_lookup (R : relation A) (l : list A) i j x y :
  StronglySorted R l → i < j → l !! i = Some x → l !! j = Some y → R x y.
Proof.
  intros Hs. revert i j. induction Hs as [|a l Hs IH Hall]; intros i j Hij Hi Hj.
  - by rewrite lookup_nil in Hi.
  - destruct j as [|j]; [lia|]. destruct i as [|i]; simplify_eq/=.
    + rewrite Forall_forall in Hall. apply Hall.
      by apply list_elem_of_lookup_2 in Hj.
    + apply (IH i j); [lia|done..].
Qed.
End ListFacts.

Lemma filter_origin_fmap {B} (s s' : Stage) (g : B → Languoid) (l : list B) :
  filter (λ c, origin c = s) (mkCandidate s' ∘ g <$> l) =
  if decide (s' = s) then mkCandidate s' ∘ g <$> l else [].
Proof.
  induction l as [|x l IH]; [by destruct (decide _)|].
  rewrite fmap_cons, filter_cons, IH. simpl.
  destruct (decide (s' = s)); done.
Qed.

Lemma filter_priority_fmap {B} (s s' : Stage) (g : B → Languoid) (l : list B) :
  filter (λ c, priority (origin c) < priority s) (mkCandidate s' ∘ g <$> l) =
  if decide (priority s' < priority s) then mkCandidate s' ∘ g <$> l else [].
Proof.
  induction l as [|x l IH]; [by destruct (decide _)|].
  rewrite fmap_cons, filter_cons, IH. simpl.
  destruct (decide (priority s' < priority s)); done.
Qed.

(** The loop over the rows of the second query appends, in their order, the
    first occurrence of each language that is not yet in [res]. *)
Lemma foldl_append_new (res0 : list Candidate) (rows : list Language) :
  ∃ new,
    foldl append_new res0 rows = res0 ++ (mkCandidate StageB ∘ ALanguage <$> new)
    ∧ new `sublist_of` rows
    ∧ NoDup new
    ∧ Forall (λ l, ALanguage l ∉ entity <$> res0) new.
Proof.
  revert res0. induction rows as [|l rows IH]; intros res0; simpl.
  - exists []. rewrite app_nil_r. repeat split; constructor.
  - unfold append_new at 2. case_bool_decide as Hin.
    + destruct (IH res0) as (new & Heq & Hsub & Hnd & Hfresh).
      exists new. repeat split; [done| |done|done].
      by apply sublist_cons.
    + destruct (IH (res0 ++ [mkCandidate StageB (ALanguage l)]))
        as (new & Heq & Hsub & Hnd & Hfresh).
      exists (l :: new). rewrite Heq, <-app_assoc. simpl.
      rewrite Forall_forall in Hfresh.
      repeat split.
      * by apply sublist_skip.
      * constructor; [|done]. intros Hl. apply (Hfresh _ Hl).
        rewrite fmap_app. apply elem_of_app. right. simpl. apply list_elem_of_here.
      * constructor; [done|]. apply Forall_forall. intros l' Hl' Hin'.
        apply (Hfresh _ Hl'). rewrite fmap_app. apply elem_of_app. by left.
Qed.

Lemma length_foldl_append_new (res0 : list Candidate) (rows : list Language) :
  length res0 ≤ length (foldl append_new res0 rows) ≤ length res0 + length rows.
Proof.
  destruct (foldl_append_new res0 rows) as (new & -> & Hsub & _ & _).
  apply sublist_length in Hsub.
  rewrite length_app, length_fmap. lia.
Qed.

Section Cascade.
Context (W : World).

Lemma names_res qs st :
  res (names W qs st) = candA <$> language_names W qs (max_results st).
Proof. done. Qed.

Lemma fill_alternative_names_res qs st :
  ∃ new,
    res (fill_alternative_names W qs st) = res st ++ (candB <$> new)
    ∧ (∃ n, new `sublist_of` alternative_names W qs n)
    ∧ NoDup new
    ∧ Forall (λ l, ALanguage l ∉ entity <$> res st) new.
Proof.
  unfold fill_alternative_names. case_bool_decide; simpl.
  - destruct (foldl_append_new (res st)
      (alternative_names W qs (max_results st - length (res st))))
      as (new & Heq & Hsub & Hnd & Hfresh).
    exists new. eauto 10.
  - exists []. rewrite app_nil_r.
    repeat split; [exists 0; apply sublist_nil_l|constructor..].
Qed.

Lemma fill_genera_res qs st :
  ∃ rows, res (fill_genera W qs st) = res st ++ (candC <$> rows).
Proof.
  unfold fill_genera. case_bool_decide; simpl; [eauto|].
  exists []. by rewrite app_nil_r.
Qed.

Lemma fill_families_res qs st :
  ∃ rows, res (fill_families W qs st) = res st ++ (candD <$> rows).
Proof.
  unfold fill_families. case_bool_decide; simpl; [eauto|].
  exists []. by rewrite app_nil_r.
Qed.

(** The shape of [res] at the end of the text search. *)
Lemma search_res limit qs :
  ∃ new rowsC rowsD,
    res (search W limit qs) =
      (candA <$> language_names W qs limit) ++ (candB <$> new)
        ++ (candC <$> rowsC) ++ (candD <$> rowsD)
    ∧ (∃ n, new `sublist_of` alternative_names W qs n)
    ∧ NoDup new
    ∧ Forall (λ l, l ∉ language_names W qs limit) new.
Proof.
  unfold search.
  set (st0 := {| res := []; max_results := limit; calls := [] |}).
  destruct (fill_families_res qs
    (fill_genera W qs (fill_alternative_names W qs (names W qs st0))))
    as (rowsD & ->).
  destruct (fill_genera_res qs (fill_alternative_names W qs (names W qs st0)))
    as (rowsC & ->).
  destruct (fill_alternative_names_res qs (names W qs st0))
    as (new & -> & Hsub & Hnd & Hfresh).
  rewrite names_res in *. simpl in *.
  exists new, rowsC, rowsD. rewrite <-!app_assoc.
  repeat split; [done..|].
  eapply Forall_impl; [exact Hfresh|]. intros l Hl Hin. apply Hl.
  rewrite <-list_fmap_compose.
  apply list_elem_of_fmap. by exists l.
Qed.

(** Outside the text search nothing is accepted and nothing is queried. *)
Lemma languoids_cases params :
  (accepted (languoids W params) = [] ∧ queries (languoids W params) = [])
  ∨ (∃ qs, params !! "q" = Some qs ∧ qs ≠ ""
       ∧ Py.truthy (params !! "id") = false
       ∧ languoids W params =
           {| response := JsonDict
                (format_result W ∘ entity <$> res (search W 20 qs)) [] false;
              accepted := res (search W 20 qs);
              queries := calls (search W 20 qs) |}).
Proof.
  unfold languoids. destruct (Py.truthy (params !! "id")) eqn:Hid.
  - left. unfold direct_lookup.
    repeat (case_match; try done).
  - destruct (params !! "q") as [qs|] eqn:Hq; simpl; [|by left].
    case_bool_decide; simpl; [|by left].
    right. exists qs. done.
Qed.

(** The list the view returns is [res], formatted entry by entry. *)
Lemma languoids_results params results context more :
  response (languoids W params) = JsonDict results context more →
  results = (format_result W ∘ entity <$> accepted (languoids W params))
  ∧ context = [] ∧ more = false.
Proof.
  unfold languoids. destruct (Py.truthy (params !! "id")).
  - unfold direct_lookup. repeat (case_match; try done).
  - destruct (negb (Py.truthy (params !! "q"))); simpl; [done|].
    intros [= <- <- <-]. done.
Qed.

End Cascade.

(** * Quota *)

Section Quota.
Context (W : World) (HW : respects_limit W) (limit : nat) (qs : string).

Lemma names_quota :
  within_quota limit
    (names W qs {| res := []; max_results := limit; calls := [] |}).
Proof.
  destruct (HW qs limit) as (HA & _).
  unfold within_quota, names. simpl. rewrite length_fmap.
  split_and!; [done|done|].
  apply Forall_singleton. simpl. lia.
Qed.

Lemma fill_alternative_names_quota st :
  within_quota limit st → within_quota limit (fill_alternative_names W qs st).
Proof.
  intros (Hlen & Hmax & Hcalls).
  unfold fill_alternative_names. case_bool_decide as Hlt; [|done].
  destruct (HW qs (max_results st - length (res st))) as (_ & HB & _).
  pose proof (length_foldl_append_new (res st)
    (alternative_names W qs (max_results st - length (res st)))) as Hb.
  unfold within_quota. simpl. split_and!; [lia|lia|].
  apply Forall_app. split; [done|].
  apply Forall_singleton. simpl. lia.
Qed.

Lemma fill_genera_quota st :
  within_quota limit st → within_quota limit (fill_genera W qs st).
Proof.
  intros (Hlen & Hmax & Hcalls).
  unfold fill_genera. case_bool_decide as Hlt; [|done].
  destruct (HW qs (max_results st - length (res st))) as (_ & _ & HC & _).
  unfold within_quota. simpl. rewrite length_app, length_fmap.
  split_and!; [lia|lia|].
  apply Forall_app. split; [done|].
  apply Forall_singleton. simpl. lia.
Qed.

Lemma fill_families_quota st :
  within_quota limit st → within_quota limit (fill_families W qs st).
Proof.
  intros (Hlen & Hmax & Hcalls).
  unfold fill_families. case_bool_decide as Hlt; [|done].
  destruct (HW qs (max_results st - length (res st))) as (_ & _ & _ & HD).
  unfold within_quota. simpl. rewrite length_app, length_fmap.
  split_and!; [lia|lia|].
  apply Forall_app. split; [done|].
  apply Forall_singleton. simpl. lia.
Qed.

Lemma search_quota : within_quota limit (search W limit qs).
Proof.
  unfold search.
  apply fill_families_quota, fill_genera_quota, fill_alternative_names_quota.
  apply names_quota.
Qed.

End Quota.

Lemma fixed_world_respects_limit A B C D :
  respects_limit (fixed_world A B C D).
Proof. intros qs n. simpl. rewrite !length_take. lia. Qed.

(** * Shape of the result list *)

Lemma omap_as_language_candA (l : list Language) :
  omap (as_language ∘ entity) (candA <$> l) = l.
Proof. induction l as [|x l IH]; [done|]. csimpl. by rewrite IH. Qed.

Lemma omap_as_language_candB (l : list Language) :
  omap (as_language ∘ entity) (candB <$> l) = l.
Proof. induction l as [|x l IH]; [done|]. csimpl. by rewrite IH. Qed.

Lemma omap_as_language_candC (l : list Genus) :
  omap (as_language ∘ entity) (candC <$> l) = [].
Proof. induction l as [|x l IH]; [done|]. csimpl. by rewrite IH. Qed.

Lemma omap_as_language_candD (l : list Family) :
  omap (as_language ∘ entity) (candD <$> l) = [].
Proof. induction l as [|x l IH]; [done|]. csimpl. by rewrite IH. Qed.

(** [res] as the view leaves it: the rows of the first query, then the new
    languages of the second, then genera, then families. *)
Lemma accepted_shape (W : World) (params : gmap string string) :
  ∃ rowsA new rowsC rowsD,
    accepted (languoids W params) =
      (candA <$> rowsA) ++ (candB <$> new) ++ (candC <$> rowsC)
        ++ (candD <$> rowsD)
    ∧ (∃ qs n, rowsA `sublist_of` language_names W qs n)
    ∧ (∃ qs n, new `sublist_of` alternative_names W qs n)
    ∧ NoDup new
    ∧ Forall (λ l, l ∉ rowsA) new.
Proof.
  destruct (languoids_cases W params) as [[-> _]|(qs & _ & _ & _ & ->)].
  - exists [], [], [], []. simpl.
    split_and!; [done|exists "", 0; apply sublist_nil_l..|constructor|constructor].
  - simpl. destruct (search_res W 20 qs)
      as (new & rowsC & rowsD & -> & Hsub & Hnd & Hfresh).
    exists (language_names W qs 20), new, rowsC, rowsD.
    split_and!; [done|by exists qs, 20|by exists qs|done|done].
Qed.

Lemma origins_sorted (rowsA new : list Language) rowsC rowsD :
  StronglySorted (λ s t, priority s ≤ priority t)
    (origin <$> (candA <$> rowsA) ++ (candB <$> new) ++ (candC <$> rowsC)
        ++ (candD <$> rowsD)).
Proof.
  rewrite !fmap_app, <-!list_fmap_compose.
  assert (∀ {B} (f : B → Candidate) (s : Stage) (l : list B),
    (∀ x, origin (f x) = s) → Forall (λ t, t = s) (origin ∘ f <$> l)) as Hconst.
  { intros B f s l Hf. apply Forall_fmap, Forall_forall. intros x _. apply Hf. }
  pose proof (Hconst _ candA StageA rowsA (λ _, eq_refl)) as HA.
  pose proof (Hconst _ candB StageB new (λ _, eq_refl)) as HB.
  pose proof (Hconst _ candC StageC rowsC (λ _, eq_refl)) as HC.
  pose proof (Hconst _ candD StageD rowsD (λ _, eq_refl)) as HD.
  assert (∀ s l, Forall (λ t, t = s) l →
    StronglySorted (λ s t, priority s ≤ priority t) l) as Hsame.
  { intros s l. induction 1 as [|t l -> Hl IH]; constructor; [done|].
    eapply Forall_impl; [exact Hl|]. by intros ? ->. }
  pose proof (Hsame _ _ HA) as SA. pose proof (Hsame _ _ HB) as SB.
  pose proof (Hsame _ _ HC) as SC. pose proof (Hsame _ _ HD) as SD.
  rewrite Forall_forall in HA, HB, HC, HD.
  repeat (apply StronglySorted_app; split_and!; [|done|]); [..|done].
  all: intros s t Hs Ht;
    repeat (apply elem_of_app in Ht as [Ht|Ht]);
    first [apply HA in Hs | apply HB in Hs | apply HC in Hs];
    first [apply HB in Ht | apply HC in Ht | apply HD in Ht];
    subst; simpl; lia.
Qed.

(** * Properties of the text search *)

(** C5: when every query returns at most as many rows as its [limit] asks
    for, the view returns at most 20 items, and no query is sent with a cap
    above the quota that remains before it runs, which is 20 minus the
    number of entries already in [res]. *)
Theorem languoids_within_limit (W : World) (params : gmap string string) :
  respects_limit W →
  length (accepted (languoids W params)) ≤ 20
  ∧ (∀ results context more,
       response (languoids W params) = JsonDict results context more →
       length results ≤ 20)
  ∧ Forall (λ c, call_cap c ≤ 20 - call_seen c) (queries (languoids W params)).
Proof.
  intros HW.
  assert (length (accepted (languoids W params)) ≤ 20
    ∧ Forall (λ c, call_cap c ≤ 20 - call_seen c) (queries (languoids W params)))
    as [Hlen Hcalls].
  { destruct (languoids_cases W params) as [[-> ->]|(qs & _ & _ & _ & ->)].
    - simpl. split; [lia|constructor].
    - simpl. destruct (search_quota W HW 20 qs) as (? & _ & ?). done. }
  split_and!; [done| |done].
  intros results context more Hresp.
  apply languoids_results in Hresp as (-> & _ & _).
  by rewrite length_fmap.
Qed.

Lemma languoids_within_limit_witness :
  respects_limit world_overlap_17
  ∧ length (accepted (languoids world_overlap_17 {["q" := "xx"]})) ≤ 20
  ∧ Forall (λ c, call_cap c ≤ 20 - call_seen c)
      (queries (languoids world_overlap_17 {["q" := "xx"]})).
Proof.
  pose proof (fixed_world_respects_limit
    (sample_language <$> seq 0 17) [sample_language 0; sample_language 17]
    (sample_genus <$> seq 0 3) [sample_family 0]) as HW.
  split; [exact HW|].
  destruct (languoids_within_limit world_overlap_17 {["q" := "xx"]} HW)
    as (Hlen & _ & Hcalls).
  split; [exact Hlen|exact Hcalls].
Defined.

(** C6: the output keeps the order of the stages: an entry that came from a
    stage of higher priority (A before B before C before D) stands before
    every entry that came from a stage of lower priority. *)
Theorem stage_priority_order (W : World) (params : gmap string string)
    (i j : nat) (ci cj : Candidate) :
  accepted (languoids W params) !! i = Some ci →
  accepted (languoids W params) !! j = Some cj →
  priority (origin ci) < priority (origin cj) →
  i < j.
Proof.
  intros Hi Hj Hprio.
  destruct (accepted_shape W params)
    as (rowsA & new & rowsC & rowsD & Heq & _).
  pose proof (origins_sorted rowsA new rowsC rowsD) as Hsorted.
  rewrite <-Heq in Hsorted.
  destruct (Nat.lt_trichotomy i j) as [Hlt|[->|Hgt]]; [done|..].
  - rewrite Hi in Hj. injection Hj as ->. lia.
  - pose proof (StronglySorted_lookup _ _ j i (origin cj) (origin ci)
      Hsorted Hgt) as Hle.
    rewrite !list_lookup_fmap, Hi, Hj in Hle.
    specialize (Hle eq_refl eq_refl). simpl in Hle. lia.
Qed.

Lemma stage_priority_order_witness :
  accepted (languoids world_overlap {["q" := "xx"]}) !! 1
    = Some (mkCandidate StageA (ALanguage (sample_language 1)))
  ∧ accepted (languoids world_overlap {["q" := "xx"]}) !! 2
    = Some (mkCandidate StageB (ALanguage (sample_language 2)))
  ∧ 1 < 2.
Proof.
  assert (accepted (languoids world_overlap {["q" := "xx"]}) !! 1
    = Some (mkCandidate StageA (ALanguage (sample_language 1)))) as H1
    by (vm_compute; reflexivity).
  assert (accepted (languoids world_overlap {["q" := "xx"]}) !! 2
    = Some (mkCandidate StageB (ALanguage (sample_language 2)))) as H2
    by (vm_compute; reflexivity).
  split; [exact H1|]. split; [exact H2|].
  apply (stage_priority_order world_overlap {["q" := "xx"]} 1 2 _ _ H1 H2).
  simpl. lia.
Defined.

(** C7: no entry found by language name (stage A) and entry found by
    alternative name (stage B) of the output are the same entity: a row of
    the second query whose language is already in [res] is not appended. *)
Theorem no_entity_in_both_A_and_B (W : World) (params : gmap string string)
    (ci cj : Candidate) :
  ci ∈ accepted (languoids W params) →
  cj ∈ accepted (languoids W params) →
  origin ci = StageA →
  origin cj = StageB →
  entity ci ≠ entity cj.
Proof.
  intros Hi Hj Hoi Hoj Heq.
  destruct (accepted_shape W params)
    as (rowsA & new & rowsC & rowsD & Hshape & _ & _ & _ & Hfresh).
  rewrite Hshape in Hi, Hj.
  assert (ci ∈ candA <$> rowsA) as HiA.
  { repeat (apply elem_of_app in Hi as [Hi|Hi]); [done|..];
      apply list_elem_of_fmap in Hi as (x & -> & _); done. }
  assert (cj ∈ candB <$> new) as HjB.
  { repeat (apply elem_of_app in Hj as [Hj|Hj]); [|done|..];
      apply list_elem_of_fmap in Hj as (x & -> & _); done. }
  apply list_elem_of_fmap in HiA as (l & -> & Hl).
  apply list_elem_of_fmap in HjB as (l' & -> & Hl').
  simpl in Heq. injection Heq as ->.
  rewrite Forall_forall in Hfresh. by apply (Hfresh l').
Qed.

Lemma no_entity_in_both_A_and_B_witness :
  entity (mkCandidate StageA (ALanguage (sample_language 0)))
  ≠ entity (mkCandidate StageB (ALanguage (sample_language 2))).
Proof.
  apply (no_entity_in_both_A_and_B world_overlap {["q" := "xx"]}).
  - vm_compute. apply list_elem_of_here.
  - vm_compute. do 2 apply list_elem_of_further. apply list_elem_of_here.
  - reflexivity.
  - reflexivity.
Defined.

(** C9: the rows of the second query are checked against [res] as it
    grows, so a language that the second query returns several times is
    appended at most once; with a first query that returns each language
    once, no language stands twice in the output. *)
Theorem language_accepted_once (W : World) (params : gmap string string) :
  NoDup (entity <$> filter (λ c, origin c = StageB)
                      (accepted (languoids W params)))
  ∧ ((∀ qs n, NoDup (language_names W qs n)) →
     NoDup (omap (as_language ∘ entity) (accepted (languoids W params)))).
Proof.
  destruct (accepted_shape W params)
    as (rowsA & new & rowsC & rowsD & -> & (qs & n & HsubA) & _ & Hnd & Hfresh).
  split.
  - rewrite !filter_app, !filter_origin_fmap. simpl.
    rewrite app_nil_r. rewrite <-list_fmap_compose.
    apply NoDup_fmap_2; [|done]. intros x y [= ->]. done.
  - intros HA. rewrite !omap_app.
    rewrite omap_as_language_candA, omap_as_language_candB,
      omap_as_language_candC, omap_as_language_candD, !app_nil_r.
    apply NoDup_app. split_and!; [|  |done].
    + apply (sublist_NoDup _ _ (HA qs n) HsubA).
    + rewrite Forall_forall in Hfresh. intros x Hx Hx'. by apply (Hfresh x).
Qed.

Lemma language_accepted_once_witness :
  (∀ qs n, NoDup (language_names world_repeats qs n))
  ∧ NoDup (omap (as_language ∘ entity)
             (accepted (languoids world_repeats {["q" := "xx"]}))).
Proof.
  assert (∀ qs n, NoDup (language_names world_repeats qs n)) as HA.
  { intros qs n. simpl.
    refine (sublist_NoDup _ _ _ (sublist_take _ n)).
    apply (bool_decide_unpack (NoDup _)). vm_compute. exact I. }
  split; [exact HA|].
  exact (proj2 (language_accepted_once world_repeats {["q" := "xx"]}) HA).
Defined.

(** * The quota of the later stages *)

Section CallsLog.
Context (W : World) (limit : nat) (qs : string).

Lemma fill_alternative_names_calls st :
  calls (fill_alternative_names W qs st) =
    calls st ++
    (if bool_decide (length (res st) < max_results st)
     then [mkCall StageB qs (max_results st - length (res st)) (length (res st))]
     else []).
Proof.
  unfold fill_alternative_names.
  case_bool_decide; simpl; [done|by rewrite app_nil_r].
Qed.

Lemma fill_genera_calls st :
  calls (fill_genera W qs st) =
    calls st ++
    (if bool_decide (length (res st) < max_results st)
     then [mkCall StageC qs (max_results st - length (res st)) (length (res st))]
     else []).
Proof.
  unfold fill_genera. case_bool_decide; simpl; [done|by rewrite app_nil_r].
Qed.

Lemma fill_families_calls st :
  calls (fill_families W qs st) =
    calls st ++
    (if bool_decide (length (res st) < max_results st)
     then [mkCall StageD qs (max_results st - length (res st)) (length (res st))]
     else []).
Proof.
  unfold fill_families. case_bool_decide; simpl; [done|by rewrite app_nil_r].
Qed.

(** The queries of the text search, in the order they are sent: the third
    and the fourth are guarded by, and capped from, the value the stage
    before left in [max_results]. *)
Lemma search_calls :
  let st1 := names W qs {| res := []; max_results := limit; calls := [] |} in
  let st2 := fill_alternative_names W qs st1 in
  let st3 := fill_genera W qs st2 in
  calls (search W limit qs) =
    [mkCall StageA qs limit 0]
    ++ (if bool_decide (length (res st1) < limit)
        then [mkCall StageB qs (limit - length (res st1)) (length (res st1))]
        else [])
    ++ (if bool_decide (length (res st2) < max_results st2)
        then [mkCall StageC qs (max_results st2 - length (res st2))
                (length (res st2))]
        else [])
    ++ (if bool_decide (length (res st3) < max_results st3)
        then [mkCall StageD qs (max_results st3 - length (res st3))
                (length (res st3))]
        else []).
Proof.
  cbv zeta. unfold search.
  rewrite fill_families_calls, fill_genera_calls, fill_alternative_names_calls.
  by rewrite <-!app_assoc.
Qed.

End CallsLog.

(** The second query is sent exactly when places are free after the first,
    with the number of free places as its cap. *)
Lemma alternative_names_get_remaining_quota (W : World)
    (params : gmap string string) :
  let o := languoids W params in
  (invoked StageA o → (invoked StageB o ↔ 0 < quota_before StageB o))
  ∧ (∀ c, c ∈ queries o → call_stage c = StageB →
       call_cap c = quota_before StageB o).
Proof.
  cbv zeta. unfold invoked, quota_before.
  destruct (languoids_cases W params) as [[-> ->]|(q & _ & _ & _ & ->)].
  - simpl. split; [by intros ?%elem_of_nil|by intros c ?%elem_of_nil].
  - cbn [accepted queries]. rewrite (search_calls W 20 q).
    destruct (search_res W 20 q) as (new & rowsC & rowsD & -> & _).
    rewrite !filter_app, !filter_priority_fmap. simpl.
    rewrite !app_nil_r, !length_fmap.
    set (a := length (language_names W q 20)).
    set (st2 := fill_alternative_names W q _).
    set (st3 := fill_genera W q _).
    split.
    + intros _. rewrite !fmap_app, !elem_of_cons, !elem_of_app.
      case_bool_decide as Ha; simpl.
      * split; [lia|]. intros _. right. left. apply list_elem_of_here.
      * split; [|lia]. intros [?|[?%elem_of_nil|[H|H]]]; [done..| |].
        -- destruct (bool_decide _); simpl in H;
             [by apply list_elem_of_singleton in H|by apply elem_of_nil in H].
        -- destruct (bool_decide _); simpl in H;
             [by apply list_elem_of_singleton in H|by apply elem_of_nil in H].
    + intros c Hc Hstage.
      apply elem_of_cons in Hc as [->|Hc]; [done|].
      rewrite !elem_of_app in Hc. destruct Hc as [Hc|[Hc|Hc]].
      * case_bool_decide; simpl in Hc;
          [by apply list_elem_of_singleton in Hc as ->|by apply elem_of_nil in Hc].
      * destruct (bool_decide _); simpl in Hc;
          [apply list_elem_of_singleton in Hc as ->; done|by apply elem_of_nil in Hc].
      * destruct (bool_decide _); simpl in Hc;
          [apply list_elem_of_singleton in Hc as ->; done|by apply elem_of_nil in Hc].
Qed.

(** C1: two runs of the view.  With ten languages found by name and none by
    alternative name, ten of the twenty places are free before stage C, and
    neither stage C nor stage D is invoked.  With five languages found by
    name and none by alternative name, stage C is invoked with a cap of 10
    while fifteen places are free, and stage D is not invoked although five
    places stay free. *)
Theorem later_stages_miss_remaining_quota :
  let o1 := languoids world_ten_names {["q" := "a"]} in
  let o2 := languoids world_five_names {["q" := "a"]} in
  (quota_before StageC o1 = 10 ∧ ¬ invoked StageC o1
   ∧ quota_before StageD o1 = 10 ∧ ¬ invoked StageD o1
   ∧ length (accepted o1) = 10)
  ∧ (quota_before StageC o2 = 15
     ∧ mkCall StageC "a" 10 5 ∈ queries o2
     ∧ quota_before StageD o2 = 5 ∧ ¬ invoked StageD o2
     ∧ length (accepted o2) = 15).
Proof.
  cbv zeta. unfold invoked.
  assert (queries (languoids world_ten_names {["q" := "a"]})
    = [mkCall StageA "a" 20 0; mkCall StageB "a" 10 10]) as ->
    by (vm_compute; reflexivity).
  assert (queries (languoids world_five_names {["q" := "a"]})
    = [mkCall StageA "a" 20 0; mkCall StageB "a" 15 5; mkCall StageC "a" 10 5])
    as -> by (vm_compute; reflexivity).
  split; split_and!; try (vm_compute; reflexivity).
  - simpl. rewrite !not_elem_of_cons. split_and!; [done..|apply not_elem_of_nil].
  - simpl. rewrite !not_elem_of_cons. split_and!; [done..|apply not_elem_of_nil].
  - do 2 apply list_elem_of_further. apply list_elem_of_here.
  - simpl. rewrite !not_elem_of_cons. split_and!; [done..|apply not_elem_of_nil].
Qed.

(** C2: the run of scenario 3.  Two languages found by name, two rows by
    alternative name of which the first repeats a language found by name,
    three matching genera.  With an initial [max_results] of 5 the text
    search ends with the entries [A; A; B] and never sends the query of
    stage C; the view itself, with its 20, does the same from seventeen
    languages found by name: eighteen entries, stages C and D not invoked. *)
Theorem scenario_3_stops_after_B :
  (origin <$> res (search world_overlap 5 "xx") = [StageA; StageA; StageB]
   ∧ calls (search world_overlap 5 "xx")
     = [mkCall StageA "xx" 5 0; mkCall StageB "xx" 3 2])
  ∧ (origin <$> accepted (languoids world_overlap_17 {["q" := "xx"]})
     = replicate 17 StageA ++ [StageB]
     ∧ queries (languoids world_overlap_17 {["q" := "xx"]})
       = [mkCall StageA "xx" 20 0; mkCall StageB "xx" 3 17]).
Proof. split_and!; vm_compute; reflexivity. Qed.

(** * The empty query *)

(** The claim C3 as stated fails: for the empty text the view does not
    return the dict with an empty [results]. *)
Lemma empty_query_not_a_dict :
  ¬ (∃ context,
       response (languoids world_overlap {["q" := ""]})
       = JsonDict [] context false).
Proof. intros [context H]. vm_compute in H. discriminate H. Qed.

(** C3, amended: without a direct-lookup key and with an empty or missing
    text, the view returns the bare empty list and sends no query. *)
Theorem empty_query_returns_empty_list (W : World)
    (params : gmap string string) :
  params !! "id" = None ∨ params !! "id" = Some "" →
  params !! "q" = None ∨ params !! "q" = Some "" →
  response (languoids W params) = JsonList []
  ∧ accepted (languoids W params) = []
  ∧ queries (languoids W params) = [].
Proof.
  intros Hid Hq. unfold languoids.
  assert (Py.truthy (params !! "id") = false) as ->
    by (by destruct Hid as [-> | ->]).
  assert (Py.truthy (params !! "q") = false) as ->
    by (by destruct Hq as [-> | ->]).
  done.
Qed.

Lemma empty_query_returns_empty_list_witness :
  response (languoids world_overlap {["q" := ""]}) = JsonList []
  ∧ accepted (languoids world_overlap {["q" := ""]}) = []
  ∧ queries (languoids world_overlap {["q" := ""]}) = [].
Proof.
  apply (empty_query_returns_empty_list world_overlap {["q" := ""]}).
  - left. vm_compute. reflexivity.
  - right. vm_compute. reflexivity.
Defined.

(** * Direct lookup *)

Section Strings.
Context (c : ascii).

Lemma contains_append (a b : string) : Py.contains c (a +:+ String c b) = true.
Proof.
  induction a as [|x a IH]; simpl.
  - by rewrite bool_decide_eq_true_2.
  - rewrite IH. by destruct (bool_decide _).
Qed.

Lemma contains_false (s : string) :
  Py.contains c s = false ↔ ∀ a b, s ≠ a +:+ String c b.
Proof.
  split.
  - intros Hs a b ->. by rewrite contains_append in Hs.
  - induction s as [|x s IH]; intros Hne; simpl; [done|].
    case_bool_decide as Hx.
    + subst x. destruct (Hne "" s). reflexivity.
    + apply IH. intros a b ->. apply (Hne (String x a) b). reflexivity.
Qed.

Lemma partition_None (s : string) :
  Py.partition c s = None ↔ Py.contains c s = false.
Proof.
  induction s as [|x s IH]; simpl; [done|].
  case_bool_decide; [done|].
  destruct (Py.partition c s) as [[??]|]; [|tauto].
  split; [done|]. intros Hs. apply IH in Hs. done.
Qed.

Lemma partition_append (m id_ : string) :
  Py.contains c m = false →
  Py.partition c (m +:+ String c id_) = Some (m, id_).
Proof.
  induction m as [|y m IH]; simpl.
  - intros _. by rewrite bool_decide_eq_true_2.
  - case_bool_decide; [done|]. intros Hm. by rewrite IH.
Qed.

Lemma partition_Some (s m id_ : string) :
  Py.partition c s = Some (m, id_)
  ↔ s = m +:+ String c id_ ∧ Py.contains c m = false.
Proof.
  split.
  - revert m. induction s as [|x s IH]; intros m; simpl; [done|].
    case_bool_decide as Hx.
    + subst x. intros [= <- <-]. done.
    + destruct (Py.partition c s) as [[before after]|]; [|done].
      intros [= <- <-]. destruct (IH before eq_refl) as [-> Hb].
      split; [done|]. simpl. by rewrite bool_decide_eq_false_2.
  - intros [-> Hm]. by apply partition_append.
Qed.
End Strings.

Lemma partition_at_first_dash (key m id_ : string) :
  Py.partition "-" key = Some (m, id_) ↔ splits_at_first_dash key m id_.
Proof.
  unfold splits_at_first_dash. rewrite partition_Some, contains_false. done.
Qed.

Lemma models_None (m : string) : models !! m = None ↔ m ∉ ["w"; "g"; "f"].
Proof.
  unfold models. rewrite !not_elem_of_cons.
  destruct (decide (m = "w")) as [->|?]; [by split; [|intros [? _]]|].
  rewrite lookup_insert_ne by done.
  destruct (decide (m = "g")) as [->|?]; [by split; [|intros (_ & ? & _)]|].
  rewrite lookup_insert_ne by done.
  destruct (decide (m = "f")) as [->|?]; [by split; [|intros (_ & _ & ? & _)]|].
  rewrite lookup_insert_ne by done.
  split; [|done]. intros _. split_and!; [done..|apply not_elem_of_nil].
Qed.

Section DirectLookup.
Context (W : World).

Lemma languoids_direct params key :
  params !! "id" = Some key → key ≠ "" →
  languoids W params = direct_lookup W key.
Proof.
  intros Hid Hkey. unfold languoids. rewrite Hid. simpl.
  by rewrite bool_decide_eq_true_2.
Qed.

(** The two ways through the direct lookup. *)
Lemma direct_lookup_cases key :
  ((∀ m id_, key ≠ m +:+ "-" +:+ id_)
   ∧ direct_lookup W key = respond HTTPNotFound)
  ∨ (∃ m id_, splits_at_first_dash key m id_
       ∧ direct_lookup W key =
           respond match models !! m with
                   | None => HTTPNotFound
                   | Some model =>
                       match get W model id_ with
                       | None => HTTPNotFound
                       | Some obj => HTTPFound (resource_url W obj)
                       end
                   end).
Proof.
  unfold direct_lookup, Py.split1.
  destruct (Py.partition "-" key) as [[m id_]|] eqn:Hp.
  - right. exists m, id_.
    pose proof Hp as Hsplit. apply partition_at_first_dash in Hsplit.
    split; [done|].
    destruct Hsplit as [-> _].
    change ("-" +:+ id_) with (String "-" id_).
    rewrite contains_append. simpl.
    repeat case_match; done.
  - left. apply partition_None in Hp. rewrite Hp. simpl.
    split; [|done]. intros m id_. by apply contains_false.
Qed.

End DirectLookup.

(** C4: for a request with a direct-lookup key the view answers
    [HTTPNotFound] exactly when the key has no ["-"], or the text before its
    first ["-"] is none of ["w"], ["g"], ["f"], or there is no entity of
    that kind with the id after it; otherwise it answers a redirect to the
    entity found; and it sends no search query in either case. *)
Theorem direct_lookup_not_found_or_redirect (W : World)
    (params : gmap string string) (key : string) :
  params !! "id" = Some key →
  key ≠ "" →
  queries (languoids W params) = []
  ∧ (response (languoids W params) = HTTPNotFound
     ↔ (∀ m id_, key ≠ m +:+ "-" +:+ id_)
       ∨ (∃ m id_, splits_at_first_dash key m id_
            ∧ (m ∉ ["w"; "g"; "f"]
               ∨ ∃ model, models !! m = Some model
                   ∧ get W model id_ = None)))
  ∧ (response (languoids W params) ≠ HTTPNotFound →
     ∃ m id_ model obj,
       splits_at_first_dash key m id_
       ∧ models !! m = Some model
       ∧ get W model id_ = Some obj
       ∧ response (languoids W params) = HTTPFound (resource_url W obj)).
Proof.
  intros Hid Hkey. rewrite (languoids_direct W params key Hid Hkey).
  destruct (direct_lookup_cases W key)
    as [[Hno ->]|(m & id_ & Hsplit & ->)]; simpl.
  - split_and!; [done| |done]. split; [by left|done].
  - split_and!; [done|split|].
    + intros Hresp. right. exists m, id_. split; [done|].
      destruct (models !! m) as [model|] eqn:Hm.
      * right. exists model. split; [done|].
        by destruct (get W model id_).
      * left. by apply models_None.
    + intros [Hno|(m' & id' & Hsplit' & Hbad)].
      * destruct Hsplit as [-> _]. by destruct (Hno m id_).
      * apply partition_at_first_dash in Hsplit, Hsplit'.
        rewrite Hsplit in Hsplit'. injection Hsplit' as <- <-.
        destruct Hbad as [Hm|(model & Hm & Hget)].
        -- apply models_None in Hm. by rewrite Hm.
        -- by rewrite Hm, Hget.
    + intros Hresp.
      destruct (models !! m) as [model|] eqn:Hm; [|done].
      destruct (get W model id_) as [obj|] eqn:Hget; [|done].
      by exists m, id_, model, obj.
Qed.

Lemma direct_lookup_not_found_or_redirect_witness :
  queries (languoids world_overlap {["id" := "w-l1"]}) = []
  ∧ response (languoids world_overlap {["id" := "w-l1"]})
    = HTTPFound "/languoid/lect/wals_code_l1"
  ∧ response (languoids world_overlap {["id" := "q-1"]}) = HTTPNotFound.
Proof.
  assert (({["id" := "w-l1"]} : gmap string string) !! "id" = Some "w-l1")
    as H1 by (vm_compute; reflexivity).
  assert ("w-l1" ≠ "") as H2 by discriminate.
  destruct (direct_lookup_not_found_or_redirect world_overlap
    {["id" := "w-l1"]} "w-l1" H1 H2) as (Hq & _ & _).
  split; [exact Hq|]. split; vm_compute; reflexivity.
Defined.

(** C10: the key is split at its first ["-"] only.  For ["w-abc-def"] the
    kind is ["w"] and the language with id ["abc-def"] is looked up; a key
    that begins with ["-"] has the empty text as its kind and is answered
    [HTTPNotFound]. *)
Theorem direct_lookup_splits_once (W : World) (params : gmap string string) :
  (params !! "id" = Some "w-abc-def" →
   Py.split1 "-" "w-abc-def" = ["w"; "abc-def"]
   ∧ response (languoids W params)
     = match get W LanguageModel "abc-def" with
       | Some obj => HTTPFound (resource_url W obj)
       | None => HTTPNotFound
       end)
  ∧ (∀ rest, params !! "id" = Some ("-" +:+ rest) →
       Py.split1 "-" ("-" +:+ rest) = [""; rest]
       ∧ response (languoids W params) = HTTPNotFound).
Proof.
  assert (models !! "w" = Some LanguageModel) as Hw by (vm_compute; reflexivity).
  assert (models !! "" = None) as Hempty by (vm_compute; reflexivity).
  split.
  - intros Hid. split; [reflexivity|].
    rewrite (languoids_direct W params _ Hid) by done.
    unfold direct_lookup.
    change (Py.contains "-" "w-abc-def") with true.
    change (Py.split1 "-" "w-abc-def") with ["w"; "abc-def"].
    cbn [negb]. rewrite Hw. by destruct (get W LanguageModel "abc-def").
  - intros rest Hid. split; [reflexivity|].
    rewrite (languoids_direct W params _ Hid) by done.
    unfold direct_lookup.
    change (Py.contains "-" ("-" +:+ rest)) with true.
    change (Py.split1 "-" ("-" +:+ rest)) with [""; rest].
    cbn [negb]. by rewrite Hempty.
Qed.

Lemma direct_lookup_splits_once_witness :
  ({["id" := "w-abc-def"]} : gmap string string) !! "id" = Some "w-abc-def"
  ∧ response (languoids world_overlap {["id" := "w-abc-def"]}) = HTTPNotFound
  ∧ response (languoids world_overlap {["id" := "-l1"]}) = HTTPNotFound.
Proof.
  assert (({["id" := "w-abc-def"]} : gmap string string) !! "id"
    = Some "w-abc-def") as H1 by (vm_compute; reflexivity).
  assert (({["id" := "-l1"]} : gmap string string) !! "id"
    = Some ("-" +:+ "l1")) as H2 by (vm_compute; reflexivity).
  split; [exact H1|]. split.
  - destruct (proj1 (direct_lookup_splits_once world_overlap
      {["id" := "w-abc-def"]}) H1) as [_ ->].
    vm_compute. reflexivity.
  - exact (proj2 (proj2 (direct_lookup_splits_once world_overlap
      {["id" := "-l1"]}) "l1" H2)).
Defined.

(** * Order of the languages found by alternative name *)

Section QueryFacts.
Context (icontains : string → string → bool).
Context (collate : relation string) `{!RelDecision collate}.
Context `{!Total collate, !Transitive collate}.

#[local] Instance by_key_total {A} (key : A → string) :
  Total (by_key collate key).
Proof. intros x y. apply (total collate). Qed.

#[local] Instance by_key_transitive {A} (key : A → string) :
  Transitive (by_key collate key).
Proof. intros x y z. apply (transitivity (R := collate)). Qed.

Lemma order_by_sorted {A} (key : A → string) (rows : list A) :
  StronglySorted (by_key collate key) (order_by collate key rows).
Proof. apply (StronglySorted_merge_sort (by_key collate key)). Qed.

Lemma query_alternative_names_sorted db qs n :
  StronglySorted (by_key collate ascii_name)
    (query_alternative_names icontains collate db qs n).
Proof.
  unfold query_alternative_names.
  apply (StronglySorted_fmap fst (by_key collate (ascii_name ∘ fst))).
  { intros x y Hxy. exact Hxy. }
  eapply StronglySorted_sublist; [apply sublist_take|].
  apply order_by_sorted.
Qed.

Lemma database_world_respects_limit db url fmt :
  respects_limit (database_world icontains collate db url fmt).
Proof.
  intros qs n. simpl.
  unfold query_language_names, query_alternative_names,
    query_genus_names, query_family_names.
  rewrite ?length_fmap, !length_take. lia.
Qed.

(** C8: against the database, the entries that stage B adds to the output
    are languages and stand in the order of their [ascii_name], the sort
    key of the language itself. *)
Theorem alternative_names_ordered_by_ascii_name (db : Database)
    (url : Languoid → string) (fmt : Languoid → DisplayRecord)
    (params : gmap string string) :
  let found := filter (λ c, origin c = StageB)
    (accepted (languoids (database_world icontains collate db url fmt) params))
  in
  entity <$> found = ALanguage <$> omap (as_language ∘ entity) found
  ∧ StronglySorted (by_key collate ascii_name)
      (omap (as_language ∘ entity) found).
Proof.
  cbv zeta.
  destruct (accepted_shape (database_world icontains collate db url fmt) params)
    as (rowsA & new & rowsC & rowsD & -> & _ & (qs & n & Hsub) & _ & _).
  rewrite !filter_app, !filter_origin_fmap. simpl.
  rewrite app_nil_r, omap_as_language_candB.
  split; [by rewrite <-list_fmap_compose|].
  eapply StronglySorted_sublist; [exact Hsub|].
  apply query_alternative_names_sorted.
Qed.

End QueryFacts.

Lemma alternative_names_ordered_by_ascii_name_witness :
  omap (as_language ∘ entity)
    (filter (λ c, origin c = StageB)
       (accepted (languoids sample_database_world {["q" := "ban"]})))
  = [abkhaz; zulu]
  ∧ StronglySorted (by_key String.le ascii_name) [abkhaz; zulu].
Proof.
  assert (omap (as_language ∘ entity)
    (filter (λ c, origin c = StageB)
       (accepted (languoids sample_database_world {["q" := "ban"]})))
    = [abkhaz; zulu]) as Heq by (vm_compute; reflexivity).
  split; [exact Heq|].
  rewrite <-Heq.
  exact (proj2 (alternative_names_ordered_by_ascii_name sample_icontains
    String.le sample_database sample_url sample_format {["q" := "ban"]})).
Defined.

(** In that run the alternative names that matched, "Zban" for Abkhaz and
    "Abantu" for Zulu, stand in the opposite order. *)
Lemma matched_names_not_in_order :
  query_alternative_names sample_icontains String.le sample_database "ban" 20
  = [abkhaz; zulu]
  ∧ sample_icontains "Zban" "ban" = true
  ∧ sample_icontains "Abantu" "ban" = true
  ∧ ¬ String.le "Zban" "Abantu".
Proof. split_and!; [vm_compute; reflexivity..|]. vm_compute. tauto. Qed.

(** * Further properties of [languoids] *)

Section TextSearch.
Context (W : World).

(** What a request is for the text search. *)
Lemma languoids_text params qs :
  Py.truthy (params !! "id") = false →
  params !! "q" = Some qs → qs ≠ "" →
  languoids W params =
    {| response := JsonDict
         (format_result W ∘ entity <$> res (search W 20 qs)) [] false;
       accepted := res (search W 20 qs);
       queries := calls (search W 20 qs) |}.
Proof.
  intros Hid Hq Hqs. unfold languoids. rewrite Hid, Hq. simpl.
  by rewrite bool_decide_eq_true_2.
Qed.

(** X1: When the query on language names fills all twenty places, it is the
    only query sent, and the output is its rows in their order. *)
Theorem full_first_query_ends_search params qs :
  Py.truthy (params !! "id") = false →
  params !! "q" = Some qs → qs ≠ "" →
  20 ≤ length (language_names W qs 20) →
  queries (languoids W params) = [mkCall StageA qs 20 0]
  ∧ response (languoids W params)
    = JsonDict (format_result W ∘ ALanguage <$> language_names W qs 20) [] false.
Proof.
  intros Hid Hq Hqs Hfull. rewrite (languoids_text params qs) by done. simpl.
  assert (search W 20 qs
    = names W qs {| res := []; max_results := 20; calls := [] |}) as ->.
  { unfold search.
    set (st1 := names W qs _).
    assert (bool_decide (length (res st1) < max_results st1) = false) as Hfalse.
    { apply bool_decide_eq_false_2. unfold st1. simpl.
      rewrite length_fmap. lia. }
    assert (fill_alternative_names W qs st1 = st1) as ->
      by (unfold fill_alternative_names; by rewrite Hfalse).
    assert (fill_genera W qs st1 = st1) as ->
      by (unfold fill_genera; by rewrite Hfalse).
    unfold fill_families. by rewrite Hfalse. }
  simpl. split; [done|]. by rewrite <-list_fmap_compose.
Qed.

(** X2: The queries of a call are sent in the order of the stages and none is
    skipped: their stages are an initial part of A, B, C, D, and each is
    sent with the text of the request. *)
Theorem queries_follow_stage_order params :
  call_stage <$> queries (languoids W params)
    `prefix_of` [StageA; StageB; StageC; StageD]
  ∧ Forall (λ c, params !! "q" = Some (call_text c))
      (queries (languoids W params)).
Proof.
  destruct (languoids_cases W params) as [[_ ->]|(qs & Hq & _ & _ & ->)].
  - split; [apply prefix_nil|constructor].
  - cbn [queries]. rewrite (search_calls W 20 qs). cbv zeta.
    set (st1 := names W qs _).
    set (st2 := fill_alternative_names W qs st1).
    set (st3 := fill_genera W qs st2).
    assert (max_results st1 = 20) as Hmax1 by done.
    destruct (bool_decide (length (res st1) < 20)) eqn:H1.
    + destruct (bool_decide (length (res st2) < max_results st2)) eqn:H2.
      * destruct (bool_decide (length (res st3) < max_results st3)) eqn:H3.
        -- split; [by exists []|]. simpl. by repeat constructor.
        -- split; [by exists [StageD]|]. simpl. by repeat constructor.
      * assert (st3 = st2) as Hst3
          by (unfold st3, fill_genera; by rewrite H2).
        rewrite Hst3, H2.
        split; [by exists [StageC; StageD]|]. simpl. by repeat constructor.
    + assert (st2 = st1) as Hst2.
      { unfold st2, fill_alternative_names. by rewrite Hmax1, H1. }
      assert (bool_decide (length (res st2) < max_results st2) = false) as H2
        by (by rewrite Hst2, Hmax1).
      assert (st3 = st2) as Hst3
        by (unfold st3, fill_genera; by rewrite H2).
      rewrite Hst3, H2.
      split; [by exists [StageB; StageC; StageD]|]. simpl. by repeat constructor.
Qed.

End TextSearch.

Lemma foldl_append_new_complete (res0 : list Candidate) (rows : list Language) l :
  l ∈ rows → ALanguage l ∈ entity <$> foldl append_new res0 rows.
Proof.
  revert res0. induction rows as [|x rows IH]; intros res0 Hl.
  - by apply elem_of_nil in Hl.
  - simpl. apply elem_of_cons in Hl as [->|Hl]; [|by apply IH].
    destruct (foldl_append_new (append_new res0 x) rows) as (new & -> & _).
    rewrite fmap_app. apply elem_of_app. left.
    unfold append_new. case_bool_decide as Hin; [done|].
    rewrite fmap_app. apply elem_of_app. right. apply list_elem_of_here.
Qed.

Section Summary.
Context (W : World) (qs : string).

Lemma fill_alternative_names_summary st :
  ∃ new,
    res (fill_alternative_names W qs st) = res st ++ (candB <$> new)
    ∧ max_results (fill_alternative_names W qs st) =
        (if bool_decide (length (res st) < max_results st)
         then max_results st - length (res st) else max_results st)
    ∧ (¬ length (res st) < max_results st → new = [])
    ∧ (∃ n, new `sublist_of` alternative_names W qs n).
Proof.
  unfold fill_alternative_names. case_bool_decide as H1.
  - destruct (foldl_append_new (res st)
      (alternative_names W qs (max_results st - length (res st))))
      as (new & Hf & Hsub & _).
    exists new. simpl. rewrite Hf.
    split_and!; [done|done|lia|by eexists].
  - exists []. rewrite app_nil_r.
    split_and!; [done..|]. exists 0. apply sublist_nil_l.
Qed.

Lemma fill_genera_summary st :
  ∃ rows,
    res (fill_genera W qs st) = res st ++ (candC <$> rows)
    ∧ max_results (fill_genera W qs st) =
        (if bool_decide (length (res st) < max_results st)
         then max_results st - length (res st) else max_results st)
    ∧ (¬ length (res st) < max_results st → rows = [])
    ∧ (∃ n, rows `sublist_of` genus_names W qs n).
Proof.
  unfold fill_genera. case_bool_decide as H1.
  - eexists. simpl. split_and!; [done|done|lia|by eexists].
  - exists []. rewrite app_nil_r.
    split_and!; [done..|]. exists 0. apply sublist_nil_l.
Qed.

Lemma fill_families_summary st :
  ∃ rows,
    res (fill_families W qs st) = res st ++ (candD <$> rows)
    ∧ (¬ length (res st) < max_results st → rows = [])
    ∧ (∃ n, rows `sublist_of` family_names W qs n).
Proof.
  unfold fill_families. case_bool_decide as H1.
  - eexists. simpl. split_and!; [done|lia|by eexists].
  - exists []. rewrite app_nil_r.
    split_and!; [done..|]. exists 0. apply sublist_nil_l.
Qed.

(** The text search in numbers: with [a] rows found by name, [b] languages
    added by alternative name and [c] genera, the entries of [res], the
    queries sent and their caps. *)
Lemma search_summary :
  ∃ rowsA new rowsC rowsD,
    let a := length rowsA in
    let b := length new in
    let c := length rowsC in
    rowsA = language_names W qs 20
    ∧ res (search W 20 qs) =
        (candA <$> rowsA) ++ (candB <$> new) ++ (candC <$> rowsC)
          ++ (candD <$> rowsD)
    ∧ calls (search W 20 qs) =
        [mkCall StageA qs 20 0]
        ++ (if bool_decide (a < 20) then [mkCall StageB qs (20 - a) a] else [])
        ++ (if bool_decide (a < 20 ∧ 2 * a + b < 20)
            then [mkCall StageC qs (20 - 2 * a - b) (a + b)] else [])
        ++ (if bool_decide (a < 20 ∧ 2 * a + b < 20 ∧ 3 * a + 2 * b + c < 20)
            then [mkCall StageD qs (20 - 3 * a - 2 * b - c) (a + b + c)]
            else [])
    ∧ (¬ (a < 20 ∧ 2 * a + b < 20) → rowsC = [] ∧ rowsD = [])
    ∧ (∃ n, new `sublist_of` alternative_names W qs n)
    ∧ (∃ n, rowsC `sublist_of` genus_names W qs n)
    ∧ (∃ n, rowsD `sublist_of` family_names W qs n).
Proof.
  rewrite (search_calls W 20 qs). cbv zeta. unfold search.
  set (st1 := names W qs _).
  set (rowsA := language_names W qs 20).
  assert (res st1 = candA <$> rowsA) as Hres1 by done.
  assert (max_results st1 = 20) as Hmax1 by done.
  clearbody st1.
  assert (length (res st1) = length rowsA) as Hlen1
    by (by rewrite Hres1, length_fmap).
  destruct (fill_alternative_names_summary st1)
    as (new & Hres2 & Hmax2 & Hnew & HsubB).
  set (st2 := fill_alternative_names W qs st1) in *. clearbody st2.
  rewrite Hmax1, Hlen1 in Hmax2, Hnew.
  assert (length (res st2) = length rowsA + length new) as Hlen2
    by (by rewrite Hres2, length_app, length_fmap, Hlen1).
  destruct (fill_genera_summary st2) as (rowsC & Hres3 & Hmax3 & HrowsC & HsubC).
  set (st3 := fill_genera W qs st2) in *. clearbody st3.
  rewrite Hlen2 in Hmax3, HrowsC.
  assert (length (res st3) = length rowsA + length new + length rowsC) as Hlen3
    by (by rewrite Hres3, length_app, length_fmap, Hlen2).
  destruct (fill_families_summary st3) as (rowsD & HresD & HrowsD & HsubD).
  rewrite Hlen3 in HrowsD.
  exists rowsA, new, rowsC, rowsD. cbv zeta.
  split; [done|]. split.
  { rewrite HresD, Hres3, Hres2, Hres1. by rewrite <-!app_assoc. }
  rewrite Hlen1, Hlen2, Hlen3.
  set (a := length rowsA) in *. set (b := length new) in *.
  set (c := length rowsC) in *.
  split_and!; [|intros Hno|done..].
  - destruct (decide (a < 20)) as [H1|H1].
    + rewrite (bool_decide_eq_true_2 _ H1) in Hmax2 |- *.
      destruct (decide (2 * a + b < 20)) as [H2|H2].
      * assert (a + b < max_results st2) as H2' by lia.
        rewrite (bool_decide_eq_true_2 _ H2') in Hmax3 |- *.
        rewrite (bool_decide_eq_true_2 (a < 20 ∧ 2 * a + b < 20)) by done.
        rewrite Hmax2, Hmax3, Hmax2.
        replace (20 - a - (a + b)) with (20 - 2 * a - b) by lia.
        do 3 f_equal.
        destruct (decide (3 * a + 2 * b + c < 20)) as [H3|H3].
        -- rewrite !bool_decide_eq_true_2 by lia.
           do 2 f_equal. lia.
        -- by rewrite !bool_decide_eq_false_2 by lia.
      * assert (¬ a + b < max_results st2) as H2' by lia.
        rewrite (bool_decide_eq_false_2 _ H2') in Hmax3 |- *.
        rewrite (bool_decide_eq_false_2 (a < 20 ∧ 2 * a + b < 20)) by lia.
        assert (c = 0) as Hc by (unfold c; by rewrite HrowsC).
        by rewrite !bool_decide_eq_false_2 by lia.
    + rewrite (bool_decide_eq_false_2 _ H1) in Hmax2 |- *.
      assert (b = 0) as Hb by (unfold b; by rewrite Hnew).
      assert (¬ a + b < max_results st2) as H2' by lia.
      rewrite (bool_decide_eq_false_2 _ H2') in Hmax3 |- *.
      assert (c = 0) as Hc by (unfold c; by rewrite HrowsC).
      by rewrite !bool_decide_eq_false_2 by lia.
  - assert (¬ a + b < max_results st2) as H2'.
    { destruct (decide (a < 20)) as [H1|H1].
      - rewrite (bool_decide_eq_true_2 _ H1) in Hmax2. lia.
      - rewrite (bool_decide_eq_false_2 _ H1) in Hmax2.
        assert (b = 0) as Hb by (unfold b; by rewrite Hnew). lia. }
    assert (rowsC = []) as HC by auto.
    split; [done|]. apply HrowsD.
    rewrite (bool_decide_eq_false_2 _ H2') in Hmax3.
    unfold c. rewrite HC. simpl. lia.
Qed.
End Summary.

Lemma entries_from_shape (o : Outcome) (rowsA new : list Language)
    (rowsC : list Genus) (rowsD : list Family) :
  accepted o =
    (candA <$> rowsA) ++ (candB <$> new) ++ (candC <$> rowsC) ++ (candD <$> rowsD) →
  entries_from StageA o = length rowsA
  ∧ entries_from StageB o = length new
  ∧ entries_from StageC o = length rowsC
  ∧ entries_from StageD o = length rowsD.
Proof.
  intros Heq. unfold entries_from. rewrite Heq.
  rewrite !filter_app, !filter_origin_fmap. simpl.
  rewrite !length_app, !length_fmap. simpl. split_and!; lia.
Qed.

Section Guards.
Context (W : World).

(** X3: The guards and caps of the queries, in the numbers of entries the
    output holds: with [a] entries found by name, [b] by alternative name
    and [c] genera, the query for alternative names is sent when [a < 20],
    with cap [20 - a]; the query for genera when moreover [2a + b < 20],
    with cap [20 - 2a - b]; the query for families when moreover
    [3a + 2b + c < 20], with cap [20 - 3a - 2b - c]. *)
Theorem guards_of_the_stages params :
  let o := languoids W params in
  let a := entries_from StageA o in
  let b := entries_from StageB o in
  let c := entries_from StageC o in
  (invoked StageB o ↔ invoked StageA o ∧ a < 20)
  ∧ (invoked StageC o ↔ invoked StageB o ∧ 2 * a + b < 20)
  ∧ (invoked StageD o ↔ invoked StageC o ∧ 3 * a + 2 * b + c < 20)
  ∧ Forall (λ q, call_cap q =
               match call_stage q with
               | StageA => 20
               | StageB => 20 - a
               | StageC => 20 - 2 * a - b
               | StageD => 20 - 3 * a - 2 * b - c
               end) (queries o).
Proof.
  cbv zeta. unfold invoked.
  destruct (languoids_cases W params) as [[Hacc ->]|(qs & _ & _ & _ & ->)].
  - simpl. rewrite !elem_of_nil. split_and!; [tauto..|constructor].
  - destruct (search_summary W qs)
      as (rowsA & new & rowsC & rowsD & _ & Hres & Hcalls & _).
    cbv zeta in Hcalls.
    destruct (entries_from_shape
      {| response := JsonDict
           (format_result W ∘ entity <$> res (search W 20 qs)) [] false;
         accepted := res (search W 20 qs);
         queries := calls (search W 20 qs) |} rowsA new rowsC rowsD Hres)
      as (-> & -> & -> & _).
    cbn [queries]. rewrite Hcalls.
    set (a := length rowsA). set (b := length new). set (c := length rowsC).
    destruct (decide (a < 20)) as [H1|H1];
      [rewrite (bool_decide_eq_true_2 (a < 20)) by done
      |rewrite (bool_decide_eq_false_2 (a < 20)) by done];
    (destruct (decide (2 * a + b < 20)) as [H2|H2];
      [rewrite ?(bool_decide_eq_true_2 (a < 20 ∧ 2 * a + b < 20)) by done
      |]);
    (destruct (decide (3 * a + 2 * b + c < 20)) as [H3|H3];
      [rewrite ?(bool_decide_eq_true_2
         (a < 20 ∧ 2 * a + b < 20 ∧ 3 * a + 2 * b + c < 20)) by done
      |]);
    rewrite ?bool_decide_eq_false_2 by lia;
    simpl; rewrite ?elem_of_cons, ?elem_of_nil;
    (split_and!; [intuition (discriminate || lia)..|]);
    repeat (constructor; [simpl; lia|]); constructor.
Qed.

(** X4: When the query on language names returns ten rows or more, the queries
    for genera and for families are not sent, and the output holds
    languages only. *)
Theorem ten_names_leave_only_languages params qs :
  Py.truthy (params !! "id") = false →
  params !! "q" = Some qs → qs ≠ "" →
  10 ≤ length (language_names W qs 20) →
  ¬ invoked StageC (languoids W params)
  ∧ ¬ invoked StageD (languoids W params)
  ∧ Forall (λ c, is_Some (as_language (entity c)))
      (accepted (languoids W params)).
Proof.
  intros Hid Hq Hqs Hten. rewrite (languoids_text W params qs) by done.
  unfold invoked. cbn [queries accepted].
  destruct (search_summary W qs)
    as (rowsA & new & rowsC & rowsD & -> & -> & -> & Hempty & _).
  cbv zeta in Hempty. destruct Hempty as [-> ->]; [lia|].
  rewrite !(bool_decide_eq_false_2 (_ ∧ _)) by lia.
  split_and!.
  - case_bool_decide; simpl; rewrite ?elem_of_cons, ?elem_of_nil;
      intuition discriminate.
  - case_bool_decide; simpl; rewrite ?elem_of_cons, ?elem_of_nil;
      intuition discriminate.
  - simpl. rewrite app_nil_r. apply Forall_app.
    split; apply Forall_fmap, Forall_forall; intros l _; by eexists.
Qed.

(** X5: The output begins with the rows of the query on language names, all of
    them and in their order. *)
Theorem names_come_first params qs :
  Py.truthy (params !! "id") = false →
  params !! "q" = Some qs → qs ≠ "" →
  ∃ rest,
    response (languoids W params)
    = JsonDict ((format_result W ∘ ALanguage <$> language_names W qs 20) ++ rest)
        [] false.
Proof.
  intros Hid Hq Hqs. rewrite (languoids_text W params qs) by done.
  cbn [response].
  destruct (search_summary W qs)
    as (rowsA & new & rowsC & rowsD & -> & -> & _).
  eexists. rewrite fmap_app, <-list_fmap_compose. done.
Qed.

(** X6: When the query on alternative names is sent, every language among its
    rows is in the output. *)
Theorem alternative_names_all_listed params qs l :
  Py.truthy (params !! "id") = false →
  params !! "q" = Some qs → qs ≠ "" →
  length (language_names W qs 20) < 20 →
  l ∈ alternative_names W qs (20 - length (language_names W qs 20)) →
  ALanguage l ∈ entity <$> accepted (languoids W params).
Proof.
  intros Hid Hq Hqs Hlt Hl. rewrite (languoids_text W params qs) by done.
  cbn [accepted]. unfold search.
  set (st1 := names W qs _).
  destruct (fill_families_res W qs
    (fill_genera W qs (fill_alternative_names W qs st1))) as (rowsD & ->).
  destruct (fill_genera_res W qs (fill_alternative_names W qs st1))
    as (rowsC & ->).
  rewrite !fmap_app, !elem_of_app. left. left.
  unfold fill_alternative_names.
  assert (length (res st1) = length (language_names W qs 20)) as Hlen
    by (unfold st1; simpl; by rewrite length_fmap).
  change (max_results st1) with 20. rewrite Hlen.
  rewrite bool_decide_eq_true_2 by done. cbn [res].
  by apply foldl_append_new_complete.
Qed.

(** X7: The kinds of answer: a request with an [id] is answered [HTTPNotFound]
    or a redirect; a request without one is answered the empty list or a
    dict whose [more] is false, whose [context] is empty and which has one
    record for each entry of [res].  No call raises. *)
Theorem kinds_of_response params :
  if Py.truthy (params !! "id")
  then response (languoids W params) = HTTPNotFound
       ∨ ∃ location, response (languoids W params) = HTTPFound location
  else response (languoids W params) = JsonList []
       ∨ ∃ results,
           response (languoids W params) = JsonDict results [] false
           ∧ length results = length (accepted (languoids W params)).
Proof.
  unfold languoids. destruct (Py.truthy (params !! "id")).
  - destruct (direct_lookup_cases W (default "" (params !! "id")))
      as [[_ ->]|(m & id_ & _ & ->)]; simpl; [by left|].
    repeat case_match; eauto.
  - destruct (negb (Py.truthy (params !! "q"))); simpl; [by left|].
    right. eexists. split; [done|]. by rewrite length_fmap.
Qed.

End Guards.

(** * The view against a database *)

Lemma omap_as_genus_cand (rowsA new : list Language) (rowsC : list Genus)
    (rowsD : list Family) :
  omap (as_genus ∘ entity)
    ((candA <$> rowsA) ++ (candB <$> new) ++ (candC <$> rowsC) ++ (candD <$> rowsD))
  = rowsC.
Proof.
  rewrite !omap_app.
  assert (omap (as_genus ∘ entity) (candA <$> rowsA) = []) as ->
    by (induction rowsA; [done|by csimpl]).
  assert (omap (as_genus ∘ entity) (candB <$> new) = []) as ->
    by (induction new; [done|by csimpl]).
  assert (omap (as_genus ∘ entity) (candD <$> rowsD) = []) as ->
    by (induction rowsD; [done|by csimpl]).
  assert (omap (as_genus ∘ entity) (candC <$> rowsC) = rowsC) as ->.
  { induction rowsC as [|x l IH]; [done|]. csimpl. by rewrite IH. }
  by rewrite app_nil_r.
Qed.

Lemma omap_as_family_cand (rowsA new : list Language) (rowsC : list Genus)
    (rowsD : list Family) :
  omap (as_family ∘ entity)
    ((candA <$> rowsA) ++ (candB <$> new) ++ (candC <$> rowsC) ++ (candD <$> rowsD))
  = rowsD.
Proof.
  rewrite !omap_app.
  assert (omap (as_family ∘ entity) (candA <$> rowsA) = []) as ->
    by (induction rowsA; [done|by csimpl]).
  assert (omap (as_family ∘ entity) (candB <$> new) = []) as ->
    by (induction new; [done|by csimpl]).
  assert (omap (as_family ∘ entity) (candC <$> rowsC) = []) as ->
    by (induction rowsC; [done|by csimpl]).
  assert (omap (as_family ∘ entity) (candD <$> rowsD) = rowsD) as ->.
  { induction rowsD as [|x l IH]; [done|]. csimpl. by rewrite IH. }
  done.
Qed.

Lemma head_filter_unique {A B} `{EqDecision B} (f : A → B) (l : list A) (x : A) :
  NoDup (f <$> l) → x ∈ l → head (filter (λ y, f y = f x) l) = Some x.
Proof.
  induction l as [|y l IH]; intros Hnd Hx; [by apply elem_of_nil in Hx|].
  rewrite fmap_cons in Hnd. apply NoDup_cons in Hnd as [Hy Hnd].
  rewrite filter_cons. apply elem_of_cons in Hx as [->|Hx].
  - by rewrite decide_True.
  - rewrite decide_False; [by apply IH|].
    intros Heq. apply Hy. rewrite Heq. by apply list_elem_of_fmap_2.
Qed.

Lemma head_filter_Some {A} (P : A → Prop) `{!∀ x, Decision (P x)}
    (l : list A) (x : A) :
  head (filter P l) = Some x → x ∈ l ∧ P x.
Proof.
  intros Hhead. apply head_Some_elem_of in Hhead.
  by apply list_elem_of_filter in Hhead as [? ?].
Qed.

Lemma models_Some (m : string) (model : Model) :
  models !! m = Some model →
  (m = "w" ∧ model = LanguageModel) ∨ (m = "g" ∧ model = GenusModel)
  ∨ (m = "f" ∧ model = FamilyModel).
Proof.
  unfold models.
  destruct (decide (m = "w")) as [->|?].
  { rewrite lookup_insert_eq. intros [= <-]. by left. }
  rewrite lookup_insert_ne by done.
  destruct (decide (m = "g")) as [->|?].
  { rewrite lookup_insert_eq. intros [= <-]. right. by left. }
  rewrite lookup_insert_ne by done.
  destruct (decide (m = "f")) as [->|?].
  { rewrite lookup_insert_eq. intros [= <-]. right. by right. }
  rewrite lookup_insert_ne by done. by rewrite lookup_empty.
Qed.

Section DatabaseFacts.
Context (icontains : string → string → bool).
Context (collate : relation string) `{!RelDecision collate}.
Context (db : Database) (url : Languoid → string)
  (fmt : Languoid → DisplayRecord).

Lemma elem_of_order_by {A} (key : A → string) (rows : list A) (x : A) :
  x ∈ order_by collate key rows ↔ x ∈ rows.
Proof. unfold order_by. by rewrite merge_sort_Permutation. Qed.

Lemma query_language_names_sound qs n l :
  l ∈ query_language_names icontains collate db qs n →
  l ∈ language db ∧ icontains (l_name l) qs.
Proof.
  unfold query_language_names. intros Hl.
  apply (sublist_subseteq _ _ (sublist_take _ n)) in Hl.
  apply elem_of_order_by in Hl. by apply list_elem_of_filter in Hl as [? ?].
Qed.

Lemma query_genus_names_sound qs n g :
  g ∈ query_genus_names icontains collate db qs n →
  g ∈ genus db ∧ icontains (g_name g) qs.
Proof.
  unfold query_genus_names. intros Hl.
  apply (sublist_subseteq _ _ (sublist_take _ n)) in Hl.
  apply elem_of_order_by in Hl. by apply list_elem_of_filter in Hl as [? ?].
Qed.

Lemma query_family_names_sound qs n f :
  f ∈ query_family_names icontains collate db qs n →
  f ∈ family db ∧ icontains (f_name f) qs.
Proof.
  unfold query_family_names. intros Hl.
  apply (sublist_subseteq _ _ (sublist_take _ n)) in Hl.
  apply elem_of_order_by in Hl. by apply list_elem_of_filter in Hl as [? ?].
Qed.

Lemma query_alternative_names_sound qs n l :
  l ∈ query_alternative_names icontains collate db qs n →
  l ∈ language db ∧ has_alternative_name icontains db qs l.
Proof.
  unfold query_alternative_names. intros Hl.
  apply list_elem_of_fmap in Hl as ([l' i] & -> & Hrow).
  apply (sublist_subseteq _ _ (sublist_take _ n)) in Hrow.
  apply elem_of_order_by in Hrow.
  apply list_elem_of_filter in Hrow as [Hmatch Hrow]. simpl in *.
  unfold join_identifiers in Hrow.
  apply list_elem_of_bind in Hrow as (l0 & Hrow & Hl0).
  apply list_elem_of_bind in Hrow as (li & Hrow & Hli).
  apply list_elem_of_bind in Hrow as (i0 & Hrow & Hi0).
  apply list_elem_of_singleton in Hrow as [= -> ->].
  apply list_elem_of_filter in Hli as [Hlipk Hli].
  apply list_elem_of_filter in Hi0 as [Hipk Hi0].
  split; [done|]. by exists li, i0.
Qed.

(** X8: Against a database the view returns at most twenty entries, whatever
    the tables hold: each query is cut by its [limit]. *)
Theorem database_at_most_twenty params :
  let o := languoids (database_world icontains collate db url fmt) params in
  length (accepted o) ≤ 20
  ∧ match response o with
    | JsonDict results _ _ => length results ≤ 20
    | JsonList items => items = []
    | _ => True
    end.
Proof.
  cbv zeta. unfold languoids.
  destruct (Py.truthy (params !! "id")).
  - destruct (direct_lookup_cases
      (database_world icontains collate db url fmt) (default "" (params !! "id")))
      as [[_ ->]|(m & id_ & _ & ->)]; simpl; [split; [lia|done]|].
    split; [lia|]. by repeat case_match.
  - destruct (negb _); simpl; [split; [lia|done]|].
    destruct (search_quota (database_world icontains collate db url fmt)
      (database_world_respects_limit icontains collate db url fmt) 20
      (default "" (params !! "q"))) as (Hlen & _).
    split; [done|]. by rewrite length_fmap.
Qed.

(** X9: Against a database every entry of the output is a row of the table of
    its stage whose searched column contains the text of the request. *)
Theorem database_results_justified params qs :
  params !! "q" = Some qs →
  Forall (justified icontains db qs)
    (accepted (languoids (database_world icontains collate db url fmt) params)).
Proof.
  intros Hq.
  destruct (languoids_cases (database_world icontains collate db url fmt) params)
    as [[-> _]|(qs' & Hq' & _ & _ & ->)]; [constructor|].
  rewrite Hq in Hq'. injection Hq' as <-. cbn [accepted].
  destruct (search_summary (database_world icontains collate db url fmt) qs)
    as (rowsA & new & rowsC & rowsD & -> & -> & _ & _
        & (nB & HsubB) & (nC & HsubC) & (nD & HsubD)).
  repeat (apply Forall_app; split); apply Forall_fmap, Forall_forall.
  - intros l Hl. by apply query_language_names_sound in Hl.
  - intros l Hl. apply (sublist_subseteq _ _ HsubB) in Hl.
    by apply query_alternative_names_sound in Hl.
  - intros g Hg. apply (sublist_subseteq _ _ HsubC) in Hg.
    by apply query_genus_names_sound in Hg.
  - intros f Hf. apply (sublist_subseteq _ _ HsubD) in Hf.
    by apply query_family_names_sound in Hf.
Qed.

(** X10: A direct lookup against a database with unique ids finds every entity
    under its own key, whether or not the id contains ["-"], and sends no
    search query. *)
Theorem database_lookup_finds_entity params x :
  in_database db x →
  unique_ids db →
  params !! "id" = Some (lookup_key x) →
  response (languoids (database_world icontains collate db url fmt) params)
    = HTTPFound (url x)
  ∧ queries (languoids (database_world icontains collate db url fmt) params)
    = [].
Proof.
  intros Hin (HL & HG & HF) Hid.
  assert (models !! "w" = Some LanguageModel) as Hw by (vm_compute; reflexivity).
  assert (models !! "g" = Some GenusModel) as Hg by (vm_compute; reflexivity).
  assert (models !! "f" = Some FamilyModel) as Hf by (vm_compute; reflexivity).
  rewrite (languoids_direct _ params _ Hid) by (by destruct x).
  unfold direct_lookup. destruct x as [l|g|f]; simpl in Hin.
  - change (Py.contains "-" (lookup_key (ALanguage l))) with true.
    change (Py.split1 "-" (lookup_key (ALanguage l))) with ["w"; l_id l].
    cbn [negb]. rewrite Hw. cbn [get database_world query_get].
    by rewrite (head_filter_unique l_id _ l HL Hin).
  - change (Py.contains "-" (lookup_key (AGenus g))) with true.
    change (Py.split1 "-" (lookup_key (AGenus g))) with ["g"; g_id g].
    cbn [negb]. rewrite Hg. cbn [get database_world query_get].
    by rewrite (head_filter_unique g_id _ g HG Hin).
  - change (Py.contains "-" (lookup_key (AFamily f))) with true.
    change (Py.split1 "-" (lookup_key (AFamily f))) with ["f"; f_id f].
    cbn [negb]. rewrite Hf. cbn [get database_world query_get].
    by rewrite (head_filter_unique f_id _ f HF Hin).
Qed.

(** X11: A redirect always leads to an entity of the database, the one that the
    key of the request names. *)
Theorem database_redirect_names_entity params location :
  response (languoids (database_world icontains collate db url fmt) params)
    = HTTPFound location →
  ∃ x, in_database db x
       ∧ params !! "id" = Some (lookup_key x)
       ∧ location = url x.
Proof.
  unfold languoids. destruct (params !! "id") as [key|] eqn:Hid; simpl.
  2: { destruct (negb _); simpl; done. }
  case_bool_decide as Hkey; [|destruct (negb _); simpl; done].
  destruct (direct_lookup_cases (database_world icontains collate db url fmt) key)
    as [[_ ->]|(m & id_ & [-> _] & ->)]; simpl; [done|].
  destruct (models !! m) as [model|] eqn:Hm; [|done].
  apply models_Some in Hm as [[-> ->]|[[-> ->]|[-> ->]]]; simpl.
  - destruct (head _) as [l|] eqn:Hl; simpl; [|done].
    apply head_filter_Some in Hl as [Hl <-].
    intros [= <-]. by exists (ALanguage l).
  - destruct (head _) as [g|] eqn:Hg; simpl; [|done].
    apply head_filter_Some in Hg as [Hg <-].
    intros [= <-]. by exists (AGenus g).
  - destruct (head _) as [f|] eqn:Hf; simpl; [|done].
    apply head_filter_Some in Hf as [Hf <-].
    intros [= <-]. by exists (AFamily f).
Qed.

End DatabaseFacts.

Section DatabaseOrder.
Context (icontains : string → string → bool).
Context (collate : relation string) `{!RelDecision collate}.
Context `{!Total collate, !Transitive collate}.
Context (db : Database) (url : Languoid → string)
  (fmt : Languoid → DisplayRecord).

Lemma take_order_by_sorted {A} (key : A → string) (rows : list A) n :
  StronglySorted (by_key collate key) (take n (order_by collate key rows)).
Proof.
  eapply StronglySorted_sublist; [apply sublist_take|].
  apply (order_by_sorted collate).
Qed.

(** X12: Against a database the languages found by name stand in the output in
    the order of their [ascii_name], the genera in the order of their name
    and the families in the order of their name. *)
Theorem database_results_ordered params :
  let o := languoids (database_world icontains collate db url fmt) params in
  StronglySorted (by_key collate ascii_name)
    (omap (as_language ∘ entity) (filter (λ c, origin c = StageA) (accepted o)))
  ∧ StronglySorted (by_key collate g_name)
      (omap (as_genus ∘ entity) (accepted o))
  ∧ StronglySorted (by_key collate f_name)
      (omap (as_family ∘ entity) (accepted o)).
Proof.
  cbv zeta.
  destruct (languoids_cases (database_world icontains collate db url fmt) params)
    as [[-> _]|(qs & _ & _ & _ & ->)]; [split_and!; constructor|].
  cbn [accepted].
  destruct (search_summary (database_world icontains collate db url fmt) qs)
    as (rowsA & new & rowsC & rowsD & -> & -> & _ & _
        & _ & (nC & HsubC) & (nD & HsubD)).
  rewrite omap_as_genus_cand, omap_as_family_cand.
  rewrite !filter_app, !filter_origin_fmap. simpl.
  rewrite !app_nil_r, omap_as_language_candA.
  split_and!.
  - apply take_order_by_sorted.
  - eapply StronglySorted_sublist; [exact HsubC|]. apply take_order_by_sorted.
  - eapply StronglySorted_sublist; [exact HsubD|]. apply take_order_by_sorted.
Qed.

End DatabaseOrder.

(** * [info] *)

(** X13: For a feature that exists, [info] lists one value for each element of
    the domain, in the order of the domain, with the element's name and
    with the numbers 1, 2, 3, ... without a gap. *)
Theorem info_numbers_the_domain (Feature_get : string → option Feature)
    (id : string) (feature : Feature) :
  Feature_get id = Some feature →
  ∃ r, info Feature_get id = Return r
       ∧ fi_name r = feature_name feature
       ∧ vi_name <$> fi_values r = de_name <$> domain feature
       ∧ vi_number <$> fi_values r = seq 1 (length (domain feature)).
Proof.
  intros Hget. unfold info. rewrite Hget. eexists. split; [done|]. simpl.
  split; [done|]. split.
  - apply list_eq. intros i.
    rewrite !list_lookup_fmap, list_lookup_imap.
    by destruct (domain feature !! i).
  - apply list_eq. intros i.
    rewrite list_lookup_fmap, list_lookup_imap.
    destruct (domain feature !! i) as [d|] eqn:Hi; simpl.
    + apply lookup_lt_Some in Hi.
      rewrite lookup_seq_lt by done. f_equal. lia.
    + apply lookup_ge_None in Hi. symmetry. apply lookup_ge_None.
      by rewrite length_seq.
Qed.

Lemma info_numbers_the_domain_witness :
  ∃ r, info sample_features "82A" = Return r
       ∧ fi_name r = "Order of Subject and Verb"
       ∧ vi_name <$> fi_values r = ["SV"; "VS"; "No dominant order"]
       ∧ vi_number <$> fi_values r = [1; 2; 3].
Proof.
  apply (info_numbers_the_domain sample_features "82A" sample_feature).
  vm_compute. reflexivity.
Defined.

(** * [OlacConfigSource] *)

#[global] Instance updated_pk_le_total : Total updated_pk_le.
Proof. intros a b. unfold updated_pk_le. lia. Qed.
#[global] Instance updated_pk_le_transitive : Transitive updated_pk_le.
Proof. intros a b c. unfold updated_pk_le. lia. Qed.
#[global] Instance pk_le_total : Total pk_le.
Proof. intros a b. unfold pk_le. lia. Qed.
#[global] Instance pk_le_transitive : Transitive pk_le.
Proof. intros a b c. unfold pk_le. lia. Qed.

(** X14: There is an earliest record exactly when there are sources, and it is
    a source that no other precedes in the order of the time of update,
    then of the primary key. *)
Theorem get_earliest_record_is_least (sources : list Source) :
  (get_earliest_record sources = None ↔ sources = [])
  ∧ (∀ r, get_earliest_record sources = Some r →
       r ∈ sources ∧ ∀ s, s ∈ sources → updated_pk_le r s).
Proof.
  unfold get_earliest_record.
  pose proof (merge_sort_Permutation updated_pk_le sources) as Hperm.
  pose proof (StronglySorted_merge_sort updated_pk_le sources) as Hsorted.
  destruct (merge_sort updated_pk_le sources) as [|r rest]; simpl.
  - apply Permutation_nil_l in Hperm as <-. split; [done|]. by intros r [=].
  - split.
    + split; [done|]. intros ->. by apply Permutation_nil_r in Hperm.
    + intros r' [= <-]. split.
      * rewrite <-Hperm. apply list_elem_of_here.
      * intros s Hs. rewrite <-Hperm in Hs.
        apply StronglySorted_cons in Hsorted as [Hall _].
        apply elem_of_cons in Hs as [->|Hs].
        -- unfold updated_pk_le. lia.
        -- rewrite Forall_forall in Hall. by apply Hall.
Qed.

(** X15: The records of a harvest are exactly the sources updated at or after
    [from_] and before [until], where such a bound is given, and they come
    in the order of their primary keys. *)
Theorem query_records_window (sources : list Source) (from_ until : option Z) :
  (∀ s, s ∈ query_records sources from_ until
        ↔ s ∈ sources
          ∧ (∀ t, from_ = Some t → (t ≤ src_updated s)%Z)
          ∧ (∀ t, until = Some t → (src_updated s < t)%Z))
  ∧ StronglySorted pk_le (query_records sources from_ until).
Proof.
  unfold query_records. split; [|apply (StronglySorted_merge_sort pk_le)].
  intros s. rewrite merge_sort_Permutation.
  destruct from_ as [a|], until as [b|]; rewrite ?list_elem_of_filter.
  - split.
    + intros (? & ? & ?). split_and!; [done|by intros ? [= <-]..].
    + intros (? & Ha & Hb). split_and!; [by apply Hb|by apply Ha|done].
  - split.
    + intros (? & ?). split_and!; [done|by intros ? [= <-]|done].
    + intros (? & Ha & _). split; [by apply Ha|done].
  - split.
    + intros (? & ?). split_and!; [done|done|by intros ? [= <-]].
    + intros (? & _ & Hb). split; [by apply Hb|done].
  - split; [by intros ?|by intros (? & _)].
Qed.

Lemma filter_windows_tile (sources : list Source) (from_ until : option Z) (b : Z) :
  (∀ a, from_ = Some a → (a ≤ b)%Z) →
  (∀ c, until = Some c → (b ≤ c)%Z) →
  let lower (rows : list Source) :=
    match from_ with
    | Some t => filter (λ s, (t ≤ src_updated s)%Z) rows
    | None => rows
    end in
  let upper (rows : list Source) :=
    match until with
    | Some t => filter (λ s, (src_updated s < t)%Z) rows
    | None => rows
    end in
  filter (λ s, (src_updated s < b)%Z) (lower sources)
    ++ upper (filter (λ s, (b ≤ src_updated s)%Z) sources)
  ≡ₚ upper (lower sources).
Proof.
  intros Hfrom Huntil. cbv zeta.
  induction sources as [|x l IH]; [by destruct from_, until|].
  destruct from_ as [a|], until as [c|];
    try specialize (Hfrom _ eq_refl); try specialize (Huntil _ eq_refl);
    rewrite ?filter_cons;
    repeat (case_decide; rewrite ?filter_cons; simpl); try lia;
    rewrite <-?Permutation_middle; by rewrite ?IH.
Qed.

(** X16: Two harvests that meet at a time [b] between the bounds divide the
    records of the whole window between them: none is lost and none is
    returned twice. *)
Theorem query_records_tile (sources : list Source) (from_ until : option Z)
    (b : Z) :
  (∀ a, from_ = Some a → (a ≤ b)%Z) →
  (∀ c, until = Some c → (b ≤ c)%Z) →
  query_records sources from_ (Some b) ++ query_records sources (Some b) until
  ≡ₚ query_records sources from_ until.
Proof.
  intros Hfrom Huntil. unfold query_records.
  rewrite !merge_sort_Permutation.
  apply (filter_windows_tile sources from_ until b Hfrom Huntil).
Qed.

Section Identifiers.
Context (d : ascii).

Lemma append_nil_r (s : string) : s +:+ "" = s.
Proof.
  induction s as [|a s IH]; [done|].
  change (String a (s +:+ "") = String a s). by rewrite IH.
Qed.

Lemma append_assoc (s t u : string) : (s +:+ t) +:+ u = s +:+ (t +:+ u).
Proof.
  induction s as [|a s IH]; [done|].
  change (String a ((s +:+ t) +:+ u) = String a (s +:+ (t +:+ u))).
  by rewrite IH.
Qed.

Lemma prefix_char (a : ascii) (s : string) :
  String.prefix (String d "") (String a s) = bool_decide (d = a).
Proof.
  simpl. destruct (ascii_dec d a) as [->|Hne].
  - rewrite bool_decide_eq_true_2 by done. by destruct s.
  - by rewrite bool_decide_eq_false_2.
Qed.

Lemma is_infix_char (a b : string) :
  is_infix (String d "") (a +:+ String d b) = true.
Proof.
  induction a as [|x a IH].
  - change ("" +:+ String d b) with (String d b).
    cbn [is_infix]. rewrite prefix_char. by rewrite bool_decide_eq_true_2.
  - change (String x a +:+ String d b) with (String x (a +:+ String d b)).
    cbn [is_infix]. rewrite IH. apply orb_true_r.
Qed.

Lemma split_go_no_separator (cur b : string) :
  Py.contains d b = false →
  Str.split_go (String d "") 0 cur b = [cur +:+ b].
Proof.
  revert cur. induction b as [|x b IH]; intros cur Hb.
  - simpl. by rewrite append_nil_r.
  - simpl in Hb. case_bool_decide as Hx; [done|].
    cbn [Str.split_go]. rewrite prefix_char.
    rewrite bool_decide_eq_false_2 by done.
    rewrite IH by done. by rewrite append_assoc.
Qed.

Lemma last_split_go (cur a b : string) :
  Py.contains d b = false →
  last (Str.split_go (String d "") 0 cur (a +:+ String d b)) = Some b.
Proof.
  intros Hb. revert cur. induction a as [|x a IH]; intros cur.
  - change ("" +:+ String d b) with (String d b).
    cbn [Str.split_go]. rewrite prefix_char, bool_decide_eq_true_2 by done.
    cbn [String.length Nat.sub]. rewrite split_go_no_separator by done.
    done.
  - change (String x a +:+ String d b) with (String x (a +:+ String d b)).
    cbn [Str.split_go]. rewrite prefix_char.
    case_bool_decide.
    + cbn [String.length Nat.sub]. rewrite last_cons, IH. done.
    + apply IH.
Qed.

(** A character that is no digit does not occur in a numeral. *)
Lemma pretty_N_go_no_char (x : N) (s : string) :
  Ascii.is_nat d = None →
  Py.contains d s = false →
  Py.contains d (pretty_N_go x s) = false.
Proof.
  intros Hd. revert s.
  induction (N.lt_wf_0 x) as [x _ IH]; intros s Hs.
  assert (x = 0 ∨ 0 < x)%N as [->|Hx] by lia.
  - by rewrite pretty_N_go_0.
  - rewrite pretty_N_go_step by done. apply IH.
    + by apply N.div_lt.
    + simpl. rewrite Hs. rewrite bool_decide_eq_false_2; [done|].
      intros Heq. rewrite <-Heq in Hd.
      unfold pretty_N_char in Hd. by repeat case_match.
Qed.

Lemma pretty_Z_no_char (n : Z) :
  Ascii.is_nat d = None → d ≠ "-"%char →
  Py.contains d (pretty n) = false.
Proof.
  intros Hd Hdash.
  assert (∀ p, Py.contains d (pretty (N.pos p)) = false) as Hpos.
  { intros p. unfold pretty, pretty_N. rewrite decide_False by done.
    by apply pretty_N_go_no_char. }
  destruct n as [|p|p]; unfold pretty, pretty_Z.
  - simpl. rewrite bool_decide_eq_false_2; [done|].
    intros <-. discriminate Hd.
  - apply Hpos.
  - change ("-" +:+ pretty p) with (String "-" (pretty (N.pos p))).
    simpl. rewrite bool_decide_eq_false_2 by done. apply Hpos.
Qed.

End Identifiers.

Section OlacFacts.
Context (scheme : string) (d : ascii) (int : string → option Z).
Context (sources : list Source) (dataset : Dataset).

Lemma is_infix_char_contains (s : string) :
  is_infix (String d "") s = Py.contains d s.
Proof.
  induction s as [|a s IH]; [done|].
  cbn [is_infix Py.contains]. rewrite prefix_char, IH.
  destruct (decide (d = a)) as [->|Hne].
  - by rewrite !bool_decide_eq_true_2.
  - by rewrite !bool_decide_eq_false_2.
Qed.

Lemma parse_identifier_after_last (a b : string) :
  Py.contains d b = false →
  parse_identifier (String d "") int (a +:+ String d b)
  = match int b with
    | Some n => Return n
    | None => Raise ValueError
    end.
Proof.
  intros Hb. unfold parse_identifier.
  rewrite is_infix_char. cbn [assert_ bind].
  unfold Str.split. rewrite bool_decide_eq_false_2 by done. cbn [bind].
  by rewrite last_split_go.
Qed.

Lemma format_identifier_shape (item : Source) :
  format_identifier scheme (String d "") dataset item
  = (scheme +:+ String d "" +:+ ("refdb." +:+ ds_domain dataset))
      +:+ String d (pretty (src_pk item)).
Proof. unfold format_identifier. cbn [Str.join]. by rewrite !append_assoc. Qed.

(** X17: Parsing an identifier, for a delimiter of one character: without the
    delimiter the assertion fails; otherwise only the text after the last
    delimiter is read, and it is a [ValueError] when [int] rejects it. *)
Theorem parse_identifier_reads_last_part :
  (∀ id_, Py.contains d id_ = false →
     parse_identifier (String d "") int id_ = Raise AssertionError)
  ∧ (∀ a b, Py.contains d b = false →
       parse_identifier (String d "") int (a +:+ String d b)
       = match int b with
         | Some n => Return n
         | None => Raise ValueError
         end).
Proof.
  split.
  - intros id_ Hno. unfold parse_identifier.
    by rewrite is_infix_char_contains, Hno.
  - intros a b Hb. by apply parse_identifier_after_last.
Qed.

(** X18: An identifier that was formatted for a record is parsed back to the
    primary key of the record, whatever the scheme and the domain are, when
    the delimiter is one character that is neither a digit nor the minus
    sign and [int] reads the numeral of the key. *)
Theorem parse_format_identifier (item : Source) :
  Ascii.is_nat d = None →
  d ≠ "-"%char →
  int (pretty (src_pk item)) = Some (src_pk item) →
  parse_identifier (String d "") int
    (format_identifier scheme (String d "") dataset item)
  = Return (src_pk item).
Proof.
  intros Hd Hdash Hint. rewrite format_identifier_shape.
  rewrite parse_identifier_after_last by (by apply pretty_Z_no_char).
  by rewrite Hint.
Qed.

(** X19: The identifier formatted for a source leads back to that source, when
    the primary keys are unique. *)
Theorem get_record_of_format_identifier (item : Source) :
  Ascii.is_nat d = None →
  d ≠ "-"%char →
  int (pretty (src_pk item)) = Some (src_pk item) →
  item ∈ sources →
  NoDup (src_pk <$> sources) →
  get_record (String d "") int sources
    (format_identifier scheme (String d "") dataset item)
  = Return item.
Proof.
  intros Hd Hdash Hint Hin Hnd. unfold get_record.
  rewrite format_identifier_shape.
  rewrite parse_identifier_after_last by (by apply pretty_Z_no_char).
  rewrite Hint. cbn [bind].
  unfold Source_get. by rewrite (head_filter_unique src_pk _ item Hnd Hin).
Qed.

(** X20: The participants of the archive: the administrator first, then one
    editor for each editor of the dataset, in their order and under their
    names; with a contact address in the dataset no participant is left
    without an e-mail address. *)
Theorem description_participants :
  ds_contact dataset ≠ "" →
  head (participants (description dataset))
    = Some (mkParticipant "Admin" "Robert Forkel" "robert_forkel@eva.mpg.de")
  ∧ p_name <$> tail (participants (description dataset))
    = contributor_name <$> ds_editors dataset
  ∧ Forall (λ p, p_role p = "Editor") (tail (participants (description dataset)))
  ∧ Forall (λ p, p_email p ≠ "") (participants (description dataset)).
Proof.
  intros Hcontact. unfold description. cbn [participants app head tail].
  split_and!; [done| | |].
  - by rewrite <-list_fmap_compose.
  - by apply Forall_fmap, Forall_forall.
  - constructor; [done|]. apply Forall_fmap, Forall_forall.
    intros ed _. simpl. unfold Str.or_.
    destruct (contributor_email ed) as [e|]; [|done].
    by case_bool_decide.
Qed.

End OlacFacts.

(** * Runs of the further properties *)

Lemma full_first_query_ends_search_witness :
  queries (languoids world_many_names {["q" := "a"]}) = [mkCall StageA "a" 20 0]
  ∧ response (languoids world_many_names {["q" := "a"]})
    = JsonDict (format_result world_many_names ∘ ALanguage
                  <$> language_names world_many_names "a" 20) [] false.
Proof.
  apply (full_first_query_ends_search world_many_names {["q" := "a"]} "a").
  - vm_compute. reflexivity.
  - vm_compute. reflexivity.
  - discriminate.
  - vm_compute. lia.
Defined.

Lemma ten_names_leave_only_languages_witness :
  ¬ invoked StageC (languoids world_ten_names {["q" := "a"]})
  ∧ ¬ invoked StageD (languoids world_ten_names {["q" := "a"]})
  ∧ Forall (λ c, is_Some (as_language (entity c)))
      (accepted (languoids world_ten_names {["q" := "a"]})).
Proof.
  apply (ten_names_leave_only_languages world_ten_names {["q" := "a"]} "a").
  - vm_compute. reflexivity.
  - vm_compute. reflexivity.
  - discriminate.
  - vm_compute. lia.
Defined.

Lemma names_come_first_witness :
  ∃ rest,
    response (languoids world_overlap {["q" := "xx"]})
    = JsonDict ((format_result world_overlap ∘ ALanguage
                   <$> language_names world_overlap "xx" 20) ++ rest) [] false.
Proof.
  apply (names_come_first world_overlap {["q" := "xx"]} "xx").
  - vm_compute. reflexivity.
  - vm_compute. reflexivity.
  - discriminate.
Defined.

Lemma alternative_names_all_listed_witness :
  ALanguage (sample_language 2)
    ∈ entity <$> accepted (languoids world_overlap {["q" := "xx"]}).
Proof.
  apply (alternative_names_all_listed world_overlap {["q" := "xx"]} "xx").
  - vm_compute. reflexivity.
  - vm_compute. reflexivity.
  - discriminate.
  - vm_compute. lia.
  - vm_compute. apply list_elem_of_further, list_elem_of_here.
Defined.

Lemma database_results_justified_witness :
  Forall (justified sample_icontains sample_database "ban")
    (accepted (languoids sample_database_world {["q" := "ban"]})).
Proof.
  apply (database_results_justified sample_icontains String.le sample_database
           sample_url sample_format {["q" := "ban"]} "ban").
  vm_compute. reflexivity.
Defined.

Lemma database_lookup_finds_entity_witness :
  response (languoids sample_database_world {["id" := "w-zul"]})
    = HTTPFound (sample_url (ALanguage zulu))
  ∧ queries (languoids sample_database_world {["id" := "w-zul"]}) = [].
Proof.
  apply (database_lookup_finds_entity sample_icontains String.le sample_database
           sample_url sample_format {["id" := "w-zul"]} (ALanguage zulu)).
  - simpl. apply list_elem_of_here.
  - split_and!; apply (bool_decide_unpack (NoDup _)); vm_compute; exact I.
  - vm_compute. reflexivity.
Defined.

Lemma database_redirect_names_entity_witness :
  ∃ x, in_database sample_database x
       ∧ ({["id" := "w-zul"]} : gmap string string) !! "id" = Some (lookup_key x)
       ∧ "/languoid/lect/wals_code_zul" = sample_url x.
Proof.
  apply (database_redirect_names_entity sample_icontains String.le
           sample_database sample_url sample_format {["id" := "w-zul"]}).
  vm_compute. reflexivity.
Defined.

Lemma database_results_ordered_witness :
  let o := languoids sample_database_world {["q" := "a"]} in
  StronglySorted (by_key String.le ascii_name)
    (omap (as_language ∘ entity) (filter (λ c, origin c = StageA) (accepted o)))
  ∧ StronglySorted (by_key String.le g_name)
      (omap (as_genus ∘ entity) (accepted o))
  ∧ StronglySorted (by_key String.le f_name)
      (omap (as_family ∘ entity) (accepted o)).
Proof.
  exact (database_results_ordered sample_icontains String.le sample_database
           sample_url sample_format {["q" := "a"]}).
Defined.

Lemma get_earliest_record_is_least_witness :
  get_earliest_record sample_sources = Some (mkSource 3 100)
  ∧ mkSource 3 100 ∈ sample_sources
  ∧ ∀ s, s ∈ sample_sources → updated_pk_le (mkSource 3 100) s.
Proof.
  assert (get_earliest_record sample_sources = Some (mkSource 3 100)) as H
    by (vm_compute; reflexivity).
  split; [exact H|].
  exact (proj2 (get_earliest_record_is_least sample_sources) _ H).
Defined.

Lemma query_records_tile_witness :
  query_records sample_sources (Some 100%Z) (Some 200%Z)
    ++ query_records sample_sources (Some 200%Z) None
  ≡ₚ query_records sample_sources (Some 100%Z) None.
Proof.
  apply (query_records_tile sample_sources (Some 100%Z) None 200%Z).
  - intros a [= <-]. lia.
  - intros c [=].
Defined.

Lemma parse_format_identifier_witness :
  parse_identifier ":" sample_int
    (format_identifier "oai" ":" sample_dataset (mkSource 12 200))
  = Return 12%Z.
Proof.
  apply (parse_format_identifier "oai" ":"%char sample_int sample_dataset
           (mkSource 12 200)).
  - reflexivity.
  - discriminate.
  - vm_compute. reflexivity.
Defined.

Lemma get_record_of_format_identifier_witness :
  get_record ":" sample_int sample_sources
    (format_identifier "oai" ":" sample_dataset (mkSource 12 200))
  = Return (mkSource 12 200).
Proof.
  apply (get_record_of_format_identifier "oai" ":"%char sample_int
           sample_sources sample_dataset (mkSource 12 200)).
  - reflexivity.
  - discriminate.
  - vm_compute. reflexivity.
  - do 2 apply list_elem_of_further. apply list_elem_of_here.
  - apply (bool_decide_unpack (NoDup _)). vm_compute. exact I.
Defined.

Lemma parse_identifier_reads_last_part_witness :
  parse_identifier ":" sample_int "oai-refdb-12" = Raise AssertionError
  ∧ parse_identifier ":" sample_int "oai:refdb.wals.info:x12" = Raise ValueError.
Proof.
  split.
  - apply (proj1 (parse_identifier_reads_last_part ":"%char sample_int)).
    vm_compute. reflexivity.
  - apply (proj2 (parse_identifier_reads_last_part ":"%char sample_int)
             "oai:refdb.wals.info" "x12").
    vm_compute. reflexivity.
Defined.

Lemma description_participants_witness :
  p_email <$> participants (description sample_dataset)
  = ["robert_forkel@eva.mpg.de"; "a@example.org"; "contact@wals.info";
     "contact@wals.info"]
  ∧ Forall (λ p, p_email p ≠ "") (participants (description sample_dataset)).
Proof.
  split; [vm_compute; reflexivity|].
  apply (description_participants sample_dataset). discriminate.
Defined.
